(** * Wordle solver: a shallow embedding of [wordle_solver.py] and of the
      API endpoints of [main.py], with the properties of the suggestion
      engine stated over it.

    Conventions of the embedding.
    - A Python [str] is a [string] of ASCII characters: [len], [str.isalpha]
      and [str.lower] are the byte-wise functions. Text outside ASCII is
      outside the model; the statements on the dictionary of an arbitrary
      corpus say so with [is_ascii].
    - A feedback pattern (a tuple of ints) is a [list Z].
    - Python exceptions are values of [exn]; a computation that may raise
      returns [Res A].
    - Python floats are idealised as real numbers ([R]) in the solver and
      the API: rounding is not modelled there, everything else of the
      arithmetic is. Which of two scores is the greater does depend on the
      rounding, so the statements about the order of the suggestions are
      made over [Doubles], the scoring path with the float arithmetic left
      arbitrary; the idealised scoring is its instance at the reals.
    - The word-frequency corpus ([top_n_list], [zipf_frequency]) and the
      outcome of the past-answer scrape are inputs of the model.
    - What the code writes with [print] is left out. *)

From Stdlib Require Import Reals Lra ZArith Lia Ascii.
From stdpp Require Import sorting strings gmap gmultiset.
From stdpp Require Import base option list.

Local Open Scope Z_scope.

(** ** Exceptions *)

Inductive exn : Type :=
| IndexError
| ZeroDivisionError
| ValueError.

Inductive Res (A : Type) : Type :=
| Ok (a : A)
| Raise (e : exn).
Arguments Ok {A} a.
Arguments Raise {A} e.

Global Instance exn_eq_dec : EqDecision exn.
Proof. solve_decision. Defined.

Global Instance Res_eq_dec {A : Type} `{EqDecision A} : EqDecision (Res A).
Proof. solve_decision. Defined.

Global Instance Res_ret : MRet Res := λ A a, Ok a.

Global Instance Res_bind : MBind Res := λ A B k m,
  match m with
  | Ok a => k a
  | Raise e => Raise e
  end.

(** [for i, x in enumerate(xs): s = body i x s], started at index [i]. *)
Fixpoint for_enumerate {A S : Type} (body : nat → A → S → Res S)
    (i : nat) (xs : list A) (s : S) : Res S :=
  match xs with
  | [] => Ok s
  | x :: xs' => s' ← body i x s; for_enumerate body (Datatypes.S i) xs' s'
  end.

(** [[f(x) for x in xs if keep(x)]] with [f] the identity and a test that
    may raise. *)
Fixpoint filterM {A : Type} (keep : A → Res bool) (xs : list A) : Res (list A) :=
  match xs with
  | [] => Ok []
  | x :: xs' =>
      b ← keep x;
      r ← filterM keep xs';
      Ok (if b : bool then x :: r else r)
  end.

(** [[f(x) for x in xs]] with an [f] that may raise. *)
Fixpoint mapM {A B : Type} (f : A → Res B) (xs : list A) : Res (list B) :=
  match xs with
  | [] => Ok []
  | x :: xs' => y ← f x; r ← mapM f xs'; Ok (y :: r)
  end.

(** ** Words and patterns *)

Definition chars (s : string) : list ascii := String.list_ascii_of_string s.

Definition pattern : Type := list Z.

Definition ABSENT : Z := 0.
Definition PRESENT : Z := 1.
Definition CORRECT : Z := 2.

(** The data model's Word: five characters. *)
Definition is_word (w : string) : Prop := String.length w = 5%nat.

Global Instance is_word_dec w : Decision (is_word w).
Proof. unfold is_word. apply _. Defined.

(** [ch in target_chars] on a list whose consumed slots hold [None]. *)
Definition contains (ch : ascii) (target_chars : list (option ascii)) : bool :=
  existsb (λ o, bool_decide (o = Some ch)) target_chars.

(** [target_chars.index(ch)]: the first position holding [ch]; the length
    of the list when there is none (the source only calls it under
    [ch in target_chars]). *)
Fixpoint index (ch : ascii) (target_chars : list (option ascii)) : nat :=
  match target_chars with
  | [] => 0%nat
  | o :: rest => if bool_decide (o = Some ch) then 0%nat else Datatypes.S (index ch rest)
  end.

(** ** Pattern Codec: [feedback_pattern] *)

(** Body of the first loop ("Greens first"). *)
Definition greens_body (target : list ascii) (i : nat) (ch : ascii)
    (st : list Z * list (option ascii)) : Res (list Z * list (option ascii)) :=
  let '(pat, target_chars) := st in
  match target !! i with
  | None => Raise IndexError
  | Some t =>
      if bool_decide (t = ch) then
        if bool_decide (i < length pat)%nat
        then Ok (<[i := 2]> pat, <[i := None]> target_chars)
        else Raise IndexError
      else Ok (pat, target_chars)
  end.

(** Body of the second loop ("Yellows"). *)
Definition yellows_body (i : nat) (ch : ascii)
    (st : list Z * list (option ascii)) : Res (list Z * list (option ascii)) :=
  let '(pat, target_chars) := st in
  match pat !! i with
  | None => Raise IndexError
  | Some v =>
      if bool_decide (v = 0) && contains ch target_chars
      then Ok (<[i := 1]> pat, <[index ch target_chars := None]> target_chars)
      else Ok (pat, target_chars)
  end.

Definition feedback_pattern (guess target : string) : Res pattern :=
  let pat := replicate 5 0 in
  let target_chars := Some <$> chars target in
  st1 ← for_enumerate (greens_body (chars target)) 0 (chars guess) (pat, target_chars);
  st2 ← for_enumerate yellows_body 0 (chars guess) st1;
  Ok (fst st2).

(** ** The two-pass reference definition of the specification *)

(** First pass of the reference: the multiset of target letters that are
    left once every exactly matching position has consumed its letter. *)
Fixpoint consume_correct (guess target : list ascii)
    (avail : gmultiset ascii) : gmultiset ascii :=
  match guess, target with
  | g :: guess', t :: target' =>
      if bool_decide (g = t)
      then consume_correct guess' target' (avail ∖ {[+ t +]})
      else consume_correct guess' target' avail
  | _, _ => avail
  end.

(** Second pass of the reference, left to right over the positions. *)
Fixpoint mark_rest (guess target : list ascii)
    (avail : gmultiset ascii) : pattern :=
  match guess, target with
  | g :: guess', t :: target' =>
      if bool_decide (g = t) then CORRECT :: mark_rest guess' target' avail
      else if bool_decide (g ∈ avail)
           then PRESENT :: mark_rest guess' target' (avail ∖ {[+ g +]})
           else ABSENT :: mark_rest guess' target' avail
  | _, _ => []
  end.

Definition feedback_reference (guess target : string) : pattern :=
  let avail := consume_correct (chars guess) (chars target)
                 (list_to_set_disj (chars target)) in
  mark_rest (chars guess) (chars target) avail.

(** ** Candidate Filter *)

(** [feedback_pattern(guess, w) == pattern], which raises when the codec does. *)
Definition matches (guess : string) (pat : pattern) (w : string) : Res bool :=
  p ← feedback_pattern guess w; Ok (bool_decide (p = pat)).

Definition filter_candidates (candidates : list string) (guess : string)
    (pat : pattern) : Res (list string) :=
  filterM (matches guess pat) candidates.

(** The loop returns [False] at the first record that disagrees, so later
    records are not evaluated. *)
Fixpoint is_consistent (word : string) (history : list (string * pattern)) : Res bool :=
  match history with
  | [] => Ok true
  | (guess, pat) :: rest =>
      p ← feedback_pattern guess word;
      if bool_decide (p ≠ pat) then Ok false else is_consistent word rest
  end.

(** ** Entropy Scorer *)

(** [partitions] is a [defaultdict(int)]; its values are read back in
    insertion order, so it is kept as an association list in that order. *)
Fixpoint increment (p : pattern) (partitions : list (pattern * Z)) : list (pattern * Z) :=
  match partitions with
  | [] => [(p, 0 + 1)]
  | (q, c) :: rest =>
      if bool_decide (q = p) then (q, c + 1) :: rest
      else (q, c) :: increment p rest
  end.

Fixpoint count_partitions (guess : string) (candidates : list string)
    (partitions : list (pattern * Z)) : Res (list (pattern * Z)) :=
  match candidates with
  | [] => Ok partitions
  | target :: rest =>
      p ← feedback_pattern guess target;
      count_partitions guess rest (increment p partitions)
  end.

(** [count / total] on two ints. *)
Definition true_div (count total : Z) : Res R :=
  if bool_decide (total = 0) then Raise ZeroDivisionError
  else Ok (IZR count / IZR total)%R.

(** [math.log2]. *)
Definition log2 (x : R) : Res R :=
  if Rlt_dec 0 x then Ok (ln x / ln 2)%R else Raise ValueError.

Fixpoint accumulate_entropy (counts : list Z) (total : Z) (entropy : R) : Res R :=
  match counts with
  | [] => Ok entropy
  | count :: rest =>
      prob ← true_div count total;
      l ← log2 prob;
      accumulate_entropy rest total (entropy - prob * l)%R
  end.

Definition expected_entropy (guess : string) (candidates : list string) : Res R :=
  partitions ← count_partitions guess candidates [];
  let total := Z.of_nat (length candidates) in
  accumulate_entropy (snd <$> partitions) total 0%R.

(** ** Ranking order *)

(** Python's [min(a, b)] and [max(a, b)] on two floats: the first argument
    unless the second is strictly smaller (larger). *)
Definition py_min (a b : R) : R := if Rlt_dec b a then b else a.
Definition py_max (a b : R) : R := if Rlt_dec a b then b else a.

Global Instance R_eq_dec : EqDecision R := Req_dec_T.
Global Instance Rlt_decision (x y : R) : Decision (x < y)%R := Rlt_dec x y.

Definition str_lt (s1 s2 : string) : Prop := String.ltb s1 s2.

(** [a < b] on [(score, word)] tuples: the first component that differs
    decides. *)
Definition tuple_lt (a b : R * string) : Prop :=
  if decide (a.1 = b.1) then
    if decide (a.2 = b.2) then False else str_lt a.2 b.2
  else (a.1 < b.1)%R.

Global Instance tuple_lt_dec a b : Decision (tuple_lt a b).
Proof. unfold tuple_lt, str_lt. repeat case_decide; apply _. Defined.

(** What a sort that only asks [<] takes for "in order". *)
Definition tuple_le (a b : R * string) : Prop := ¬ tuple_lt b a.

Global Instance tuple_le_dec a b : Decision (tuple_le a b).
Proof. unfold tuple_le. apply _. Defined.

(** [scores.sort(reverse=True)]: the list is reversed, sorted ascending by a
    merge sort, and reversed again. *)
Definition sort_reverse (scores : list (R * string)) : list (R * string) :=
  reverse (merge_sort tuple_le (reverse scores)).

(** [xs[:k]] for an int [k] of either sign. *)
Definition slice_to {A : Type} (k : Z) (xs : list A) : list A :=
  if bool_decide (0 ≤ k) then take (Z.to_nat k) xs
  else take (length xs - Z.to_nat (- k)) xs.

(** ** ASCII case functions used by the dictionary provider and the API *)

Definition is_upper (c : ascii) : bool :=
  let n := nat_of_ascii c in (65 <=? n)%nat && (n <=? 90)%nat.

Definition is_lower (c : ascii) : bool :=
  let n := nat_of_ascii c in (97 <=? n)%nat && (n <=? 122)%nat.

Definition char_lower (c : ascii) : ascii :=
  if is_upper c then ascii_of_nat (nat_of_ascii c + 32) else c.

Fixpoint lower (s : string) : string :=
  match s with
  | EmptyString => EmptyString
  | String c rest => String (char_lower c) (lower rest)
  end.

(** [str.isalpha]: at least one character, all of them letters. *)
Definition isalpha (s : string) : bool :=
  negb (bool_decide (s = EmptyString))
  && forallb (λ c, is_upper c || is_lower c) (chars s).

(** ** Solver state and API messages *)

Record WordleSolver : Type := mkSolver {
  all_words : list string;
  candidates : list string;
  history : list (string * pattern)
}.

(** The [detail] of an [HTTPException]: a literal, or a prefix followed by
    [str(e)] of the exception that was caught. *)
Inductive detail_text : Type :=
| Literal (text : string)
| Formatted (prefix : string) (e : exn).

Record HTTPException : Type := mkHTTPException {
  status_code : Z;
  detail : detail_text
}.

Record GuessRequest : Type := mkGuessRequest {
  req_session_id : string;
  req_word : string;
  req_pattern : pattern;
  req_alpha : R;
  req_topk : Z;
  req_restrict_guesses : bool
}.

Record GuessResponse : Type := mkGuessResponse {
  suggestions : list string;
  candidates_remaining : Z;
  is_solved : bool;
  message : option string
}.

(** One call on a session, for sequences of calls. *)
Inductive call : Type :=
| CallGuess (word : string) (pat : pattern) (alpha : R) (topk : Z)
    (restrict_guesses : bool)
| CallReset.

Section Engine.

(** The frequency corpus: [top_n_list(lang, n)] and [zipf_frequency(word, lang)]. *)
Variable top_n_list : string → Z → list string.
Variable zipf_frequency : string → string → R.

(** ** Hybrid Ranker *)

Definition hybrid_score (guess : string) (candidates : list string) (alpha : R) : Res R :=
  ent ← expected_entropy guess candidates;
  let freq := zipf_frequency guess "en" in
  let freq_clamped := py_max (py_min freq 7) 1 in
  let freq_norm := ((freq_clamped - 1) / 6)%R in
  Ok (alpha * ent + (1 - alpha) * freq_norm)%R.

Definition _score_word_worker (args : string * list string * R) : Res (R * string) :=
  let '(word, candidates, alpha) := args in
  score ← hybrid_score word candidates alpha;
  Ok (score, word).

(** ** Parallel Dispatcher *)

(** The loop of the small-pool branch: [scores.append((s, w))] per word. *)
Fixpoint serial_scores (guess_pool candidates : list string) (alpha : R)
    : Res (list (R * string)) :=
  match guess_pool with
  | [] => Ok []
  | w :: rest =>
      s ← hybrid_score w candidates alpha;
      scores ← serial_scores rest candidates alpha;
      Ok ((s, w) :: scores)
  end.

(** [list(executor.map(_score_word_worker, args))]: [Executor.map] hands the
    results back in the order of [args], whichever worker finishes first. *)
Definition parallel_scores (guess_pool candidates : list string) (alpha : R)
    : Res (list (R * string)) :=
  let args := (λ w, (w, candidates, alpha)) <$> guess_pool in
  mapM _score_word_worker args.

(** [scores.sort(reverse=True); return [w for _, w in scores[:topk]]]. *)
Definition rank (scores : list (R * string)) (topk : Z) : list string :=
  snd <$> slice_to topk (sort_reverse scores).

Definition suggest_serial (guess_pool candidates : list string) (alpha : R)
    (topk : Z) : Res (list string) :=
  scores ← serial_scores guess_pool candidates alpha; Ok (rank scores topk).

Definition suggest_parallel (guess_pool candidates : list string) (alpha : R)
    (topk : Z) : Res (list string) :=
  scores ← parallel_scores guess_pool candidates alpha; Ok (rank scores topk).

Definition suggest_guesses (candidates all_words : list string) (alpha : R)
    (topk : Z) (restrict_guesses : bool) : Res (list string) :=
  let guess_pool := if restrict_guesses then candidates else all_words in
  if bool_decide (length guess_pool < 500)%nat
  then suggest_serial guess_pool candidates alpha topk
  else suggest_parallel guess_pool candidates alpha topk.

(** ** Dictionary provider *)

(** [scrape] is the outcome of the [try] block that fetches the past
    answers: [Some past_answers], or [None] when anything in it raised. *)
Definition build_dictionary (n_top : Z) (filter_past_answers : bool)
    (scrape : option (list string)) : list string :=
  let words :=
    lower <$> filter (λ w, String.length w = 5%nat ∧ isalpha w)
                     (top_n_list "en" n_top) in
  let word_set :=
    merge_sort String.le (elements (list_to_set words : gset string)) in
  if filter_past_answers then
    match scrape with
    | Some past_answers => filter (λ w, w ∉ past_answers) word_set
    | None => word_set
    end
  else word_set.

(** ** Solver Session *)

Definition WordleSolver_init (n_top : Z) (filter_past_answers : bool)
    (scrape : option (list string)) : WordleSolver :=
  let all := build_dictionary n_top false scrape in
  {| all_words := all;
     candidates := if filter_past_answers
                   then build_dictionary n_top true scrape
                   else all;
     history := [] |}.

Definition suggest_initial_guess (self : WordleSolver) (alpha : R) (topk : Z)
    (restrict_guesses : bool) : Res (list string) :=
  suggest_guesses (candidates self) (all_words self) alpha topk restrict_guesses.

(** [guess] mutates the solver: the state it leaves is returned next to the
    result, and is the partly updated one when the call raises. *)
Definition guess (self : WordleSolver) (word : string) (pat : pattern)
    (alpha : R) (topk : Z) (restrict_guesses : bool)
    : WordleSolver * Res (list string) :=
  let self1 := {| all_words := all_words self;
                  candidates := candidates self;
                  history := history self ++ [(word, pat)] |} in
  match filter_candidates (candidates self1) word pat with
  | Raise e => (self1, Raise e)
  | Ok remaining =>
      let self2 := {| all_words := all_words self1;
                      candidates := remaining;
                      history := history self1 |} in
      if bool_decide (length remaining = 0%nat) then (self2, Ok [])
      else if bool_decide (length remaining = 1%nat) then (self2, Ok remaining)
      else (self2, suggest_guesses remaining (all_words self2) alpha topk
                     restrict_guesses)
  end.

Definition reset (self : WordleSolver) : WordleSolver :=
  {| all_words := all_words self;
     candidates := all_words self;
     history := [] |}.

Definition run_call (self : WordleSolver) (c : call) : WordleSolver :=
  match c with
  | CallGuess word pat alpha topk restrict_guesses =>
      fst (guess self word pat alpha topk restrict_guesses)
  | CallReset => reset self
  end.

Definition run_calls (self : WordleSolver) (cs : list call) : WordleSolver :=
  foldl run_call self cs.

(** ** The guess endpoint of the API *)

Definition submit_guess (sessions : gmap string WordleSolver)
    (request : GuessRequest)
    : gmap string WordleSolver * (HTTPException + GuessResponse) :=
  match sessions !! req_session_id request with
  | None => (sessions, inl (mkHTTPException 404 (Literal "Session not found")))
  | Some solver =>
      let word := lower (req_word request) in
      if negb (isalpha word) || negb (bool_decide (String.length word = 5%nat))
      then (sessions, inl (mkHTTPException 400 (Literal "Word must be 5 letters")))
      else if negb (forallb (λ p, bool_decide (p ∈ [0; 1; 2])) (req_pattern request))
      then (sessions,
            inl (mkHTTPException 400 (Literal "Pattern must contain only 0, 1, or 2")))
      else
        let '(solver', result) :=
          guess solver word (req_pattern request) (req_alpha request)
                (req_topk request) (req_restrict_guesses request) in
        let sessions' := <[req_session_id request := solver']> sessions in
        match result with
        | Raise e =>
            (sessions',
             inl (mkHTTPException 500 (Formatted "Failed to process guess: " e)))
        | Ok suggested =>
            let solved := bool_decide (length (candidates solver') = 1%nat) in
            let msg :=
              if bool_decide (length (candidates solver') = 0%nat)
              then Some "No candidates remain - check your pattern"
              else if solved
              then match candidates solver' with
                   | answer :: _ => Some ("Solved! Answer is '" +:+ answer +:+ "'")
                   | [] => None
                   end
              else None in
            (sessions',
             inr {| suggestions := suggested;
                    candidates_remaining := Z.of_nat (length (candidates solver'));
                    is_solved := solved;
                    message := msg |})
        end
  end.

End Engine.

(** ** The other endpoints of the API *)

Record InitRequest : Type := mkInitRequest {
  init_n_top : Z;
  init_filter_past_answers : bool;
  init_alpha : R;
  init_topk : Z;
  init_restrict_guesses : bool
}.

Record InitResponse : Type := mkInitResponse {
  init_session_id : string;
  init_suggestions : list string;
  total_candidates : Z
}.

Record ResetRequest : Type := mkResetRequest {
  reset_session_id : string
}.

Record SessionInfo : Type := mkSessionInfo {
  info_session_id : string;
  info_candidates_remaining : Z;
  guesses_made : Z
}.

Record HealthStatus : Type := mkHealthStatus {
  health_status : string;
  active_sessions : Z
}.

Section Api.

Variable top_n_list : string → Z → list string.
Variable zipf_frequency : string → string → R.

(** [uuid4] is the string [str(uuid.uuid4())] drew, [scrape] the outcome of
    the past-answer fetch made by the constructor. The session is stored
    only after the initial suggestions were computed. *)
Definition initialize_solver (sessions : gmap string WordleSolver)
    (request : InitRequest) (uuid4 : string) (scrape : option (list string))
    : gmap string WordleSolver * (HTTPException + InitResponse) :=
  let solver :=
    WordleSolver_init top_n_list (init_n_top request)
      (init_filter_past_answers request) scrape in
  let session_id := uuid4 in
  match suggest_initial_guess zipf_frequency solver (init_alpha request)
          (init_topk request) (init_restrict_guesses request) with
  | Raise e =>
      (sessions,
       inl (mkHTTPException 500 (Formatted "Failed to initialize solver: " e)))
  | Ok suggested =>
      (<[session_id := solver]> sessions,
       inr {| init_session_id := session_id;
              init_suggestions := suggested;
              total_candidates := Z.of_nat (length (candidates solver)) |})
  end.

Definition reset_session (sessions : gmap string WordleSolver)
    (request : ResetRequest)
    : gmap string WordleSolver * (HTTPException + string) :=
  match sessions !! reset_session_id request with
  | None => (sessions, inl (mkHTTPException 404 (Literal "Session not found")))
  | Some solver =>
      (<[reset_session_id request := reset solver]> sessions,
       inr "Session reset successfully")
  end.

Definition get_session_info (sessions : gmap string WordleSolver)
    (session_id : string) : HTTPException + SessionInfo :=
  match sessions !! session_id with
  | None => inl (mkHTTPException 404 (Literal "Session not found"))
  | Some solver =>
      inr {| info_session_id := session_id;
             info_candidates_remaining := Z.of_nat (length (candidates solver));
             guesses_made := Z.of_nat (length (history solver)) |}
  end.

Definition delete_session (sessions : gmap string WordleSolver)
    (session_id : string)
    : gmap string WordleSolver * (HTTPException + string) :=
  match sessions !! session_id with
  | None => (sessions, inl (mkHTTPException 404 (Literal "Session not found")))
  | Some _ => (delete session_id sessions, inr "Session deleted successfully")
  end.

Definition health_check (sessions : gmap string WordleSolver) : HealthStatus :=
  {| health_status := "healthy";
     active_sessions := Z.of_nat (size sessions) |}.

End Api.

(** ** The scoring path over the doubles the code computes

    Which word [suggest_guesses] puts first is decided by comparing the
    scores as the interpreter computed them, roundings included. For the
    statements about that order the scoring path is embedded once more,
    over an arbitrary float arithmetic: the type of the doubles, the
    literals and the operations the source applies to them are the fields
    of [arithmetic], and nothing is assumed of the values they return. *)
Module Doubles.

Record arithmetic : Type := mkArithmetic {
  double : Type;
  lit_0 : double;                          (* 0.0 *)
  lit_1 : double;                          (* 1.0 *)
  lit_6 : double;                          (* 6.0 *)
  lit_7 : double;                          (* 7.0 *)
  fadd : double → double → double;         (* x + y *)
  fsub : double → double → double;         (* x - y *)
  fmul : double → double → double;         (* x * y *)
  fdiv : double → double → double;         (* x / y, for the divisor 6.0 *)
  int_truediv : Z → Z → double;            (* i / j on ints, for j != 0 *)
  math_log2 : double → Res double;         (* math.log2(x) *)
  flt : double → double → bool;            (* x < y *)
  feq : double → double → bool             (* x == y *)
}.

(** The arithmetic of the idealised model: real numbers, no rounding. *)
Definition real_arithmetic : arithmetic :=
  {| double := R;
     lit_0 := 0%R; lit_1 := 1%R; lit_6 := 6%R; lit_7 := 7%R;
     fadd := Rplus; fsub := Rminus; fmul := Rmult; fdiv := Rdiv;
     int_truediv := λ i j, (IZR i / IZR j)%R;
     math_log2 := log2;
     flt := λ x y, bool_decide (x < y)%R;
     feq := λ x y, bool_decide (x = y) |}.

(** [x == x]: true of every double but NaN. *)
Definition not_nan (A : arithmetic) (x : double A) : Prop := feq A x x = true.

(** What IEEE 754 gives for [<] and [==] on the doubles other than NaN:
    [==] is an equivalence, [<] is transitive and respects [==], and of
    [x < y], [x == y], [y < x] exactly one holds. *)
Record ordered (A : arithmetic) : Prop := {
  flt_trans (x y z : double A) :
    not_nan A x → not_nan A y → not_nan A z →
    flt A x y = true → flt A y z = true → flt A x z = true;
  feq_sym (x y : double A) :
    not_nan A x → not_nan A y → feq A x y = true → feq A y x = true;
  feq_trans (x y z : double A) :
    not_nan A x → not_nan A y → not_nan A z →
    feq A x y = true → feq A y z = true → feq A x z = true;
  flt_feq_l (x y z : double A) :
    not_nan A x → not_nan A y → not_nan A z →
    feq A x y = true → flt A x z = true → flt A y z = true;
  flt_feq_r (x y z : double A) :
    not_nan A x → not_nan A y → not_nan A z →
    feq A y z = true → flt A x y = true → flt A x z = true;
  flt_not_feq (x y : double A) :
    not_nan A x → not_nan A y → flt A x y = true → feq A x y = false;
  flt_total (x y : double A) :
    not_nan A x → not_nan A y →
    flt A x y = true ∨ feq A x y = true ∨ flt A y x = true
}.

Section Scoring.

Variable A : arithmetic.
Variable zipf_frequency : string → string → double A.

(** [count / total] on two ints. *)
Definition true_div (count total : Z) : Res (double A) :=
  if bool_decide (total = 0) then Raise ZeroDivisionError
  else Ok (int_truediv A count total).

Fixpoint accumulate_entropy (counts : list Z) (total : Z) (entropy : double A)
    : Res (double A) :=
  match counts with
  | [] => Ok entropy
  | count :: rest =>
      prob ← true_div count total;
      l ← math_log2 A prob;
      accumulate_entropy rest total (fsub A entropy (fmul A prob l))
  end.

Definition expected_entropy (guess : string) (candidates : list string)
    : Res (double A) :=
  partitions ← count_partitions guess candidates [];
  let total := Z.of_nat (length candidates) in
  accumulate_entropy (snd <$> partitions) total (lit_0 A).

(** [min(a, b)] and [max(a, b)]: the first argument unless [b < a]
    ([b > a]) holds. *)
Definition py_min (a b : double A) : double A := if flt A b a then b else a.
Definition py_max (a b : double A) : double A := if flt A a b then b else a.

Definition hybrid_score (guess : string) (candidates : list string)
    (alpha : double A) : Res (double A) :=
  ent ← expected_entropy guess candidates;
  let freq := zipf_frequency guess "en" in
  let freq_clamped := py_max (py_min freq (lit_7 A)) (lit_1 A) in
  let freq_norm := fdiv A (fsub A freq_clamped (lit_1 A)) (lit_6 A) in
  Ok (fadd A (fmul A alpha ent) (fmul A (fsub A (lit_1 A) alpha) freq_norm)).

Definition _score_word_worker (args : string * list string * double A)
    : Res (double A * string) :=
  let '(word, candidates, alpha) := args in
  score ← hybrid_score word candidates alpha;
  Ok (score, word).

Fixpoint serial_scores (guess_pool candidates : list string) (alpha : double A)
    : Res (list (double A * string)) :=
  match guess_pool with
  | [] => Ok []
  | w :: rest =>
      s ← hybrid_score w candidates alpha;
      scores ← serial_scores rest candidates alpha;
      Ok ((s, w) :: scores)
  end.

Definition parallel_scores (guess_pool candidates : list string)
    (alpha : double A) : Res (list (double A * string)) :=
  let args := (λ w, (w, candidates, alpha)) <$> guess_pool in
  mapM _score_word_worker args.

(** [a < b] on [(score, word)] tuples: the first component on which [==]
    fails decides, by [<]. *)
Definition tuple_lt (a b : double A * string) : Prop :=
  if feq A a.1 b.1 then
    if decide (a.2 = b.2) then False else str_lt a.2 b.2
  else flt A a.1 b.1 = true.

Global Instance tuple_lt_dec a b : Decision (tuple_lt a b).
Proof.
  unfold tuple_lt, str_lt.
  destruct (feq A a.1 b.1); [destruct (decide (a.2 = b.2))|]; apply _.
Defined.

Definition tuple_le (a b : double A * string) : Prop := ¬ tuple_lt b a.

Global Instance tuple_le_dec a b : Decision (tuple_le a b).
Proof. unfold tuple_le. apply _. Defined.

(** [scores.sort(reverse=True)], as in the idealised model. *)
Definition sort_reverse (scores : list (double A * string))
    : list (double A * string) :=
  reverse (merge_sort tuple_le (reverse scores)).

Definition rank (scores : list (double A * string)) (topk : Z) : list string :=
  snd <$> slice_to topk (sort_reverse scores).

Definition suggest_serial (guess_pool candidates : list string)
    (alpha : double A) (topk : Z) : Res (list string) :=
  scores ← serial_scores guess_pool candidates alpha; Ok (rank scores topk).

Definition suggest_parallel (guess_pool candidates : list string)
    (alpha : double A) (topk : Z) : Res (list string) :=
  scores ← parallel_scores guess_pool candidates alpha; Ok (rank scores topk).

Definition suggest_guesses (candidates all_words : list string)
    (alpha : double A) (topk : Z) (restrict_guesses : bool) : Res (list string) :=
  let guess_pool := if restrict_guesses then candidates else all_words in
  if bool_decide (length guess_pool < 500)%nat
  then suggest_serial guess_pool candidates alpha topk
  else suggest_parallel guess_pool candidates alpha topk.

(** [tuple_le], with the tuples whose score is NaN put below all others:
    the same relation on the scores that are not NaN, and a total preorder
    on all of them. *)
Definition tuple_le_all (a b : double A * string) : Prop :=
  feq A a.1 a.1 = false ∨ (not_nan A a.1 ∧ not_nan A b.1 ∧ tuple_le a b).

Global Instance tuple_le_all_dec a b : Decision (tuple_le_all a b).
Proof. unfold tuple_le_all, not_nan. apply _. Defined.

End Scoring.

End Doubles.

(** ** Auxiliary definitions for the statements and their proofs *)

(** What the first loop leaves in [pattern] and in [target_chars]. *)
Definition greens_marks (guess target : list ascii) : list Z :=
  zip_with (λ g t, if bool_decide (g = t) then 2 else 0) guess target.

Definition greens_slots (guess target : list ascii) : list (option ascii) :=
  zip_with (λ g t, if bool_decide (g = t) then None else Some t) guess target.

(** The letters still available in [target_chars], as a multiset. *)
Definition bag (target_chars : list (option ascii)) : gmultiset ascii :=
  list_to_set_disj (omap (λ o, o) target_chars).

(** The state a session is in between two calls that did not raise. *)
Record solver_inv (s : WordleSolver) : Prop := {
  inv_all_words : Forall is_word (all_words s);
  inv_candidates : Forall is_word (candidates s);
  inv_history : ∀ w g p,
    w ∈ candidates s → (g, p) ∈ history s → feedback_pattern g w = Ok p
}.

Definition well_formed_call (c : call) : Prop :=
  match c with
  | CallGuess word _ _ _ _ => is_word word
  | CallReset => True
  end.

Definition is_guess_call (c : call) : Prop :=
  match c with
  | CallGuess _ _ _ _ _ => True
  | CallReset => False
  end.

(** The partitions after the counting loop, as a function of the patterns
    the candidates produce. *)
Definition tally (ps : list pattern) (acc : list (pattern * Z)) : list (pattern * Z) :=
  foldl (λ acc p, increment p acc) acc ps.

(** [partitions[k]] without inserting: 0 for a key that is not there. *)
Fixpoint get (k : pattern) (partitions : list (pattern * Z)) : Z :=
  match partitions with
  | [] => 0
  | (q, c) :: rest => if bool_decide (q = k) then c else get k rest
  end.

Definition occurrences (k : pattern) (ps : list pattern) : Z :=
  Z.of_nat (count_occ (λ x y, decide (x = y)) ps k).

Definition sumZ (cs : list Z) : Z := foldr Z.add 0 cs.

(** One partition's term [prob * log2(prob)] and the sums of the terms. *)
Definition entropy_term (count total : Z) : R :=
  (IZR count / IZR total * (ln (IZR count / IZR total) / ln 2))%R.

Definition entropy_sum (counts : list Z) (total : Z) : R :=
  foldr (λ c acc, (entropy_term c total + acc)%R) 0%R counts.

Definition weighted_logs (counts : list Z) : R :=
  foldr (λ c acc, (IZR c * ln (IZR c) + acc)%R) 0%R counts.

(** The frequency term as the specification words it: clamp to [lo, hi],
    then rescale linearly to [0, 1]. *)
Definition clamp (lo hi x : R) : R := Rmax lo (Rmin hi x).

Definition rescale (lo hi x : R) : R := ((x - lo) / (hi - lo))%R.

Definition freq_norm (freq : R) : R := rescale 1 7 (clamp 1 7 freq).

(** A small corpus and session used to run the model on concrete inputs. *)
Definition sample_corpus : string → Z → list string :=
  λ _ _, ["trace"; "Crane"; "the"; "slate"; "crane"; "ab3de"; "stale"; "plate"].

Definition sample_zipf : string → string → R := λ _ _, 0%R.

Definition sample_solver : WordleSolver :=
  WordleSolver_init sample_corpus 100000 false None.

Definition sample_filtered_solver : WordleSolver :=
  WordleSolver_init sample_corpus 100000 true (Some ["crane"]).

(** A pattern entry is one of the three feedback symbols. *)
Definition is_mark (m : Z) : Prop := m = ABSENT ∨ m = PRESENT ∨ m = CORRECT.

(** How often a letter occurs in a word, how many of the positions of a
    guess that hold the letter are marked PRESENT or CORRECT, and at how
    many positions guess and target both hold the letter. *)
Fixpoint letter_count (c : ascii) (l : list ascii) : nat :=
  match l with
  | [] => 0
  | x :: l' => (if bool_decide (x = c) then 1 else 0) + letter_count c l'
  end.

Fixpoint marked_count (c : ascii) (guess : list ascii) (pat : list Z) : nat :=
  match guess, pat with
  | g :: guess', m :: pat' =>
      (if bool_decide (g = c ∧ m ≠ ABSENT) then 1 else 0)
      + marked_count c guess' pat'
  | _, _ => 0
  end.

Fixpoint exact_count (c : ascii) (guess target : list ascii) : nat :=
  match guess, target with
  | g :: guess', t :: target' =>
      (if bool_decide (g = c ∧ t = c) then 1 else 0)
      + exact_count c guess' target'
  | _, _ => 0
  end.

(** A call that cannot lose the hidden answer: a guess whose pattern is the
    feedback the answer gives, or a reset. *)
Definition truthful (answer : string) (c : call) : Prop :=
  match c with
  | CallGuess word pat _ _ _ => feedback_pattern word answer = Ok pat
  | CallReset => True
  end.

(** The records a sequence of calls appends to the history. *)
Definition records (cs : list call) : list (string * pattern) :=
  omap (λ c, match c with
             | CallGuess word pat _ _ _ => Some (word, pat)
             | CallReset => None
             end) cs.

Definition guess_on_word (c : call) : Prop := is_guess_call c ∧ well_formed_call c.

(** A string of ASCII characters: every code is below 128. On these
    Python's [len], [str.isalpha] and [str.lower] are the byte-wise
    functions above. *)
Definition is_ascii (w : string) : Prop :=
  Forall (λ c, (nat_of_ascii c < 128)%nat) (chars w).

(** All characters are ASCII lowercase letters. *)
Definition lowercase (w : string) : Prop := forallb is_lower (chars w) = true.

(** Every stored session is in a state the constructor and calls on words
    can leave. *)
Definition sessions_inv (sessions : gmap string WordleSolver) : Prop :=
  map_Forall (λ _ s, solver_inv s) sessions.

(** * Properties *)

(** ** The model on concrete inputs *)

Example feedback_crane_trace_run :
  feedback_pattern "crane" "trace" = Ok [1; 2; 2; 0; 2].
Proof. reflexivity. Qed.

Example feedback_same_word_run :
  feedback_pattern "eerie" "eerie" = Ok [2; 2; 2; 2; 2].
Proof. reflexivity. Qed.

Example feedback_duplicates_run :
  feedback_pattern "eerie" "crane" = Ok [0; 0; 1; 0; 2]
  ∧ feedback_pattern "speed" "abide" = Ok [0; 0; 1; 0; 1].
Proof. split; reflexivity. Qed.

(** A guess longer than five letters, or longer than the target, makes an
    index run out of range. *)
Example feedback_long_guess_raises :
  feedback_pattern "cranes" "tracer" = Raise IndexError
  ∧ feedback_pattern "crane" "tree" = Raise IndexError.
Proof. split; reflexivity. Qed.

(** The end-to-end case of the specification. *)
Example filter_end_to_end_run :
  filter_candidates ["crane"; "trace"; "slate"; "stale"; "plate"] "crane"
    [1; 2; 2; 0; 2] = Ok ["trace"].
Proof. reflexivity. Qed.

Example build_dictionary_run :
  build_dictionary sample_corpus 100000 false None
  = ["crane"; "plate"; "slate"; "stale"; "trace"]
  ∧ build_dictionary sample_corpus 100000 true (Some ["crane"])
    = ["plate"; "slate"; "stale"; "trace"]
  ∧ build_dictionary sample_corpus 100000 true None
    = ["crane"; "plate"; "slate"; "stale"; "trace"].
Proof. repeat split; vm_compute; reflexivity. Qed.

Example slice_to_run :
  slice_to 2 [1; 2; 3] = [1; 2] ∧ slice_to 5 [1; 2; 3] = [1; 2; 3]
  ∧ slice_to (-1) [1; 2; 3] = [1; 2] ∧ slice_to (-4) [1; 2; 3] = [].
Proof. repeat split. Qed.

(** ** Generic facts about the error monad and the loops *)

Lemma bind_Ok {A B : Type} (m : Res A) (k : A → Res B) (b : B) :
  (m ≫= k) = Ok b ↔ ∃ a, m = Ok a ∧ k a = Ok b.
Proof.
  destruct m as [a|e]; simpl; split.
  - intros H. exists a. by split.
  - by intros (a' & [= <-] & H).
  - discriminate.
  - by intros (a' & [=] & _).
Qed.

Lemma chars_length (s : string) : length (chars s) = String.length s.
Proof. induction s as [|c s IH]; simpl; [done | by rewrite IH]. Qed.

(** ** Pattern Codec *)

Lemma greens_body_match target i ch pat tc :
  target !! i = Some ch → (i < length pat)%nat →
  greens_body target i ch (pat, tc) = Ok (<[i := 2]> pat, <[i := None]> tc).
Proof.
  intros Ht Hi. unfold greens_body. rewrite Ht.
  by rewrite !bool_decide_true by done.
Qed.

Lemma greens_body_miss target i ch t pat tc :
  target !! i = Some t → t ≠ ch →
  greens_body target i ch (pat, tc) = Ok (pat, tc).
Proof.
  intros Ht Hne. unfold greens_body. rewrite Ht.
  by rewrite bool_decide_false by done.
Qed.

Lemma yellows_body_hit i ch pat tc :
  pat !! i = Some 0 → contains ch tc = true →
  yellows_body i ch (pat, tc)
  = Ok (<[i := 1]> pat, <[index ch tc := None]> tc).
Proof. intros Hp Hc. unfold yellows_body. by rewrite Hp, Hc. Qed.

Lemma yellows_body_skip i ch v pat tc :
  pat !! i = Some v → v ≠ 0 ∨ contains ch tc = false →
  yellows_body i ch (pat, tc) = Ok (pat, tc).
Proof.
  intros Hp Hc. unfold yellows_body. rewrite Hp.
  destruct Hc as [Hv | ->].
  - by rewrite bool_decide_false by done.
  - by rewrite andb_false_r.
Qed.

Lemma greens_loop (guess : list ascii) :
  ∀ (t1 t2 : list ascii) (p1 : list Z) (c1 : list (option ascii)),
    length p1 = length t1 → length c1 = length t1 →
    length guess = length t2 →
    for_enumerate (greens_body (t1 ++ t2)) (length t1) guess
      (p1 ++ replicate (length guess) 0, c1 ++ (Some <$> t2))
    = Ok (p1 ++ greens_marks guess t2, c1 ++ greens_slots guess t2).
Proof.
  induction guess as [|g guess IH]; intros t1 t2 p1 c1 Hp Hc Hlen.
  - destruct t2; [|done]. simpl. by rewrite !app_nil_r.
  - destruct t2 as [|t t2]; [done|]. simpl in Hlen.
    assert (Hlook : (t1 ++ t :: t2) !! length t1 = Some t).
    { by rewrite lookup_app_r, Nat.sub_diag by lia. }
    specialize (IH (t1 ++ [t]) t2).
    rewrite length_app, Nat.add_1_r, <- (assoc_L (++)) in IH.
    cbn [for_enumerate length replicate fmap list_fmap].
    unfold greens_marks, greens_slots. cbn [zip_with].
    fold (greens_marks guess t2). fold (greens_slots guess t2).
    case_bool_decide as Hgt.
    + subst t. rewrite greens_body_match; [|done|rewrite length_app; simpl; lia].
      cbn [mbind Res_bind].
      rewrite !insert_app_r_alt by lia. rewrite Hp, Hc, Nat.sub_diag.
      cbn [insert list_insert].
      specialize (IH (p1 ++ [2]) (c1 ++ [None])).
      rewrite <- !(assoc_L (++)) in IH.
      apply IH; rewrite ?length_app; simpl; lia.
    + rewrite (greens_body_miss _ _ _ t) by done.
      cbn [mbind Res_bind].
      specialize (IH (p1 ++ [0]) (c1 ++ [Some t])).
      rewrite <- !(assoc_L (++)) in IH.
      apply IH; rewrite ?length_app; simpl; lia.
Qed.

Lemma bag_cons_Some (c : ascii) (tc : list (option ascii)) :
  bag (Some c :: tc) = {[+ c +]} ⊎ bag tc.
Proof. reflexivity. Qed.

Lemma bag_cons_None (tc : list (option ascii)) : bag (None :: tc) = bag tc.
Proof. reflexivity. Qed.

Lemma contains_bag (ch : ascii) (tc : list (option ascii)) :
  contains ch tc = true ↔ ch ∈ bag tc.
Proof.
  unfold contains. induction tc as [|o tc IH]; cbn [existsb].
  - split; [done | unfold bag; simpl; multiset_solver].
  - rewrite orb_true_iff, IH, bool_decide_eq_true.
    destruct o as [c|].
    + rewrite bag_cons_Some, gmultiset_elem_of_disj_union,
        gmultiset_elem_of_singleton.
      split; (intros [H|H]; [left | by right]); congruence.
    + rewrite bag_cons_None. split; [by intros [H|H] | by right].
Qed.

Lemma bag_consume (ch : ascii) (tc : list (option ascii)) :
  ch ∈ bag tc → bag (<[index ch tc := None]> tc) = bag tc ∖ {[+ ch +]}.
Proof.
  induction tc as [|o tc IH]; cbn [index].
  - unfold bag; simpl. multiset_solver.
  - intros Hin. case_bool_decide as Ho.
    + subst o. change (<[0%nat := None]> (Some ch :: tc)) with (None :: tc).
      rewrite bag_cons_Some, bag_cons_None. clear IH Hin. multiset_solver.
    + change (<[S (index ch tc) := None]> (o :: tc))
        with (o :: <[index ch tc := None]> tc).
      destruct o as [c|].
      * assert (c ≠ ch) by congruence.
        rewrite bag_cons_Some in Hin.
        apply gmultiset_elem_of_disj_union in Hin as [Hin|Hin].
        { apply gmultiset_elem_of_singleton in Hin. congruence. }
        rewrite !bag_cons_Some, IH by done. multiset_solver.
      * rewrite !bag_cons_None. rewrite bag_cons_None in Hin. by apply IH.
Qed.

Lemma yellows_loop (guess : list ascii) :
  ∀ (target : list ascii) (p1 : list Z) (tc : list (option ascii)),
    length guess = length target →
    ∃ tc',
      for_enumerate yellows_body (length p1) guess
        (p1 ++ greens_marks guess target, tc)
      = Ok (p1 ++ mark_rest guess target (bag tc), tc').
Proof.
  induction guess as [|g guess IH]; intros target p1 tc Hlen.
  - destruct target; [|done]. by exists tc.
  - destruct target as [|t target]; [done|]. simpl in Hlen.
    cbn [for_enumerate mark_rest]. unfold greens_marks. cbn [zip_with].
    fold (greens_marks guess target).
    case_bool_decide as Hgt.
    + rewrite (yellows_body_skip _ _ 2);
        [|by rewrite lookup_app_r, Nat.sub_diag by lia|by left].
      cbn [mbind Res_bind].
      destruct (IH target (p1 ++ [2]) tc) as [tc' Htc']; [lia|].
      rewrite length_app, Nat.add_1_r, <- !(assoc_L (++)) in Htc'.
      by exists tc'.
    + destruct (contains g tc) eqn:Hc.
      * rewrite yellows_body_hit;
          [|by rewrite lookup_app_r, Nat.sub_diag by lia|done].
        cbn [mbind Res_bind].
        rewrite insert_app_r_alt, Nat.sub_diag by lia.
        cbn [insert list_insert].
        apply contains_bag in Hc. rewrite bool_decide_true by done.
        destruct (IH target (p1 ++ [1]) (<[index g tc := None]> tc))
          as [tc' Htc']; [lia|].
        rewrite length_app, Nat.add_1_r, <- !(assoc_L (++)) in Htc'.
        rewrite bag_consume in Htc' by done.
        by exists tc'.
      * rewrite (yellows_body_skip _ _ 0);
          [|by rewrite lookup_app_r, Nat.sub_diag by lia|by right].
        cbn [mbind Res_bind].
        assert (g ∉ bag tc) by (rewrite <- contains_bag; congruence).
        rewrite bool_decide_false by done.
        destruct (IH target (p1 ++ [0]) tc) as [tc' Htc']; [lia|].
        rewrite length_app, Nat.add_1_r, <- !(assoc_L (++)) in Htc'.
        by exists tc'.
Qed.

Lemma consume_correct_bag (guess : list ascii) :
  ∀ (target : list ascii) (m : gmultiset ascii),
    length guess = length target →
    consume_correct guess target (m ⊎ list_to_set_disj target)
    = m ⊎ bag (greens_slots guess target).
Proof.
  induction guess as [|g guess IH]; intros target m Hlen.
  - by destruct target.
  - destruct target as [|t target]; [done|]. simpl in Hlen.
    unfold greens_slots. cbn [zip_with consume_correct list_to_set_disj foldr].
    fold (greens_slots guess target).
    change (foldr _ _ target) with (list_to_set_disj target : gmultiset ascii).
    case_bool_decide as Hgt.
    + rewrite bag_cons_None.
      replace ((m ⊎ ({[+ t +]} ⊎ list_to_set_disj target)) ∖ {[+ t +]})
        with (m ⊎ list_to_set_disj target) by multiset_solver.
      apply IH. lia.
    + rewrite bag_cons_Some.
      replace (m ⊎ ({[+ t +]} ⊎ list_to_set_disj target))
        with ((m ⊎ {[+ t +]}) ⊎ list_to_set_disj target) by multiset_solver.
      rewrite IH by lia. multiset_solver.
Qed.

(** The index loops compute the reference on two sequences of five letters. *)
Lemma feedback_pattern_reference (guess target : string) :
  is_word guess → is_word target →
  feedback_pattern guess target = Ok (feedback_reference guess target).
Proof.
  unfold is_word. rewrite <- !chars_length. intros Hg Ht.
  unfold feedback_pattern, feedback_reference.
  pose proof (greens_loop (chars guess) [] (chars target) [] []
                eq_refl eq_refl ltac:(lia)) as Hgreens.
  rewrite Hg in Hgreens. cbn [app length] in Hgreens.
  cbn zeta. rewrite Hgreens. cbn [mbind Res_bind].
  destruct (yellows_loop (chars guess) (chars target) []
              (greens_slots (chars guess) (chars target))) as [tc' Hy]; [lia|].
  simpl in Hy. rewrite Hy. cbn [mbind Res_bind fst]. f_equal. f_equal.
  pose proof (consume_correct_bag (chars guess) (chars target) ∅) as Hc.
  rewrite !(left_id_L ∅ (⊎)) in Hc. rewrite Hc; [done | lia].
Qed.

Lemma feedback_pattern_total (guess target : string) :
  is_word guess → is_word target → ∃ p, feedback_pattern guess target = Ok p.
Proof. intros Hg Ht. eexists. by apply feedback_pattern_reference. Qed.

(** ** Candidate Filter *)

Lemma filterM_Ok_inv {A : Type} (keep : A → Res bool) (xs r : list A) :
  filterM keep xs = Ok r →
  r = filter (λ x, keep x = Ok true) xs ∧ Forall (λ x, ∃ b, keep x = Ok b) xs.
Proof.
  revert r. induction xs as [|x xs IH]; intros r; cbn [filterM].
  - intros [= <-]. by split.
  - intros (b & Hb & (r' & Hr' & [= <-])%bind_Ok)%bind_Ok.
    destruct (IH r' Hr') as [-> Hall]. split; [|constructor; eauto].
    destruct b.
    + by rewrite filter_cons_True.
    + rewrite filter_cons_False; [done | congruence].
Qed.

Lemma filterM_total {A : Type} (keep : A → Res bool) (xs : list A) :
  Forall (λ x, ∃ b, keep x = Ok b) xs →
  filterM keep xs = Ok (filter (λ x, keep x = Ok true) xs).
Proof.
  induction 1 as [|x xs [b Hb] _ IH]; [done|].
  cbn [filterM]. rewrite Hb, IH. cbn [mbind Res_bind]. f_equal.
  destruct b.
  - by rewrite filter_cons_True.
  - rewrite filter_cons_False; [done | congruence].
Qed.

Lemma filterM_idem {A : Type} (keep : A → Res bool) (xs : list A) :
  (filterM keep xs ≫= filterM keep) = filterM keep xs.
Proof.
  destruct (filterM keep xs) as [r|e] eqn:Hr; [|done].
  cbn [mbind Res_bind]. apply filterM_Ok_inv in Hr as [-> Hall].
  rewrite filterM_total.
  - f_equal. apply list_filter_filter_l. tauto.
  - apply Forall_forall. intros x [_ Hx]%list_elem_of_filter.
    rewrite Forall_forall in Hall. auto.
Qed.

Lemma matches_true (guess : string) (pat : pattern) (w : string) :
  matches guess pat w = Ok true ↔ feedback_pattern guess w = Ok pat.
Proof.
  unfold matches. destruct (feedback_pattern guess w) as [p|e]; simpl.
  - split.
    + intros [= H%bool_decide_eq_true]. by subst.
    + intros [= ->]. by rewrite bool_decide_true.
  - split; discriminate.
Qed.

Lemma matches_total (guess : string) (pat : pattern) (w : string) :
  is_word guess → is_word w → ∃ b, matches guess pat w = Ok b.
Proof.
  intros Hg Hw. destruct (feedback_pattern_total guess w Hg Hw) as [p Hp].
  unfold matches. rewrite Hp. simpl. eauto.
Qed.

(** On words the filter does not raise and keeps exactly the candidates
    whose feedback is the pattern. *)
Lemma filter_candidates_words (cands : list string) (guess : string) (pat : pattern) :
  is_word guess → Forall is_word cands →
  filter_candidates cands guess pat
  = Ok (filter (λ w, feedback_pattern guess w = Ok pat) cands).
Proof.
  intros Hg Hc. unfold filter_candidates. rewrite filterM_total.
  - f_equal. apply list_filter_iff. intros w. apply matches_true.
  - eapply Forall_impl; [exact Hc|]. intros w Hw. by apply matches_total.
Qed.

Lemma filter_candidates_sublist (cands r : list string) (guess : string) (pat : pattern) :
  filter_candidates cands guess pat = Ok r →
  r `sublist_of` cands ∧ ∀ w, w ∈ r ↔ w ∈ cands ∧ feedback_pattern guess w = Ok pat.
Proof.
  intros [-> _]%filterM_Ok_inv. split; [apply sublist_filter|].
  intros w. rewrite list_elem_of_filter, matches_true. tauto.
Qed.

(** [is_consistent] answers [True] exactly when the word reproduces the
    pattern of every record. *)
Lemma is_consistent_true (word : string) (hist : list (string * pattern)) :
  is_consistent word hist = Ok true
  ↔ Forall (λ gp, feedback_pattern gp.1 word = Ok gp.2) hist.
Proof.
  induction hist as [|[g p] hist IH]; cbn [is_consistent].
  - split; [constructor | done].
  - rewrite Forall_cons. cbn [fst snd].
    destruct (feedback_pattern g word) as [q|e]; cbn [mbind Res_bind].
    + case_bool_decide as Hq.
      * split; [discriminate | intros [[= ->] _]; done].
      * subst q. rewrite IH. tauto.
    + split; [discriminate | intros [[=] _]].
Qed.

(** ** Dictionary provider *)

Lemma Forall_filter_keep {A : Type} (P Q : A → Prop) `{∀ x, Decision (Q x)}
    (l : list A) :
  Forall P l → Forall P (filter Q l).
Proof.
  rewrite !Forall_forall. intros HP x [_ Hx]%list_elem_of_filter. auto.
Qed.

Lemma lower_length (s : string) : String.length (lower s) = String.length s.
Proof. induction s as [|c s IH]; simpl; [done | by rewrite IH]. Qed.

Section Session.

Variable top_n_list : string → Z → list string.
Variable zipf_frequency : string → string → R.

(** Every entry of the dictionary is a Word, whatever the corpus holds and
    whatever the scrape returned. *)
Lemma build_dictionary_words n_top filter_past_answers scrape :
  Forall is_word (build_dictionary top_n_list n_top filter_past_answers scrape).
Proof.
  unfold build_dictionary.
  match goal with
  | |- context [merge_sort String.le ?l] =>
      assert (Hsorted : Forall is_word (merge_sort String.le l))
  end.
  { apply Forall_forall. intros w Hw.
    rewrite merge_sort_Permutation in Hw.
    apply elem_of_elements, elem_of_list_to_set, list_elem_of_fmap in Hw
      as (w0 & -> & Hw0).
    apply list_elem_of_filter in Hw0 as [[Hlen _] _].
    unfold is_word. by rewrite lower_length. }
  destruct filter_past_answers; [|done].
  destruct scrape as [past_answers|]; [|done].
  by apply Forall_filter_keep.
Qed.

Lemma WordleSolver_init_inv n_top filter_past_answers scrape :
  solver_inv (WordleSolver_init top_n_list n_top filter_past_answers scrape).
Proof.
  unfold WordleSolver_init. split; cbn [all_words candidates history].
  - apply build_dictionary_words.
  - destruct filter_past_answers; apply build_dictionary_words.
  - intros w g p _ Hin. by apply elem_of_nil in Hin.
Qed.

(** What [guess] leaves in the solver, whether or not it raises. *)
Lemma guess_state (s : WordleSolver) word pat alpha topk restrict_guesses :
  let s' := (guess zipf_frequency s word pat alpha topk restrict_guesses).1 in
  all_words s' = all_words s
  ∧ history s' = history s ++ [(word, pat)]
  ∧ (candidates s' = candidates s
     ∨ filter_candidates (candidates s) word pat = Ok (candidates s')).
Proof.
  unfold guess. cbn [candidates history all_words].
  destruct (filter_candidates (candidates s) word pat) as [r|e]; [|by auto].
  repeat case_bool_decide; cbn; auto.
Qed.

Lemma guess_state_words (s : WordleSolver) word pat alpha topk restrict_guesses :
  is_word word → Forall is_word (candidates s) →
  candidates (guess zipf_frequency s word pat alpha topk restrict_guesses).1
  = filter (λ w, feedback_pattern word w = Ok pat) (candidates s).
Proof.
  intros Hw Hc. unfold guess. cbn [candidates history all_words].
  rewrite filter_candidates_words by done.
  repeat case_bool_decide; reflexivity.
Qed.

Lemma guess_sublist (s : WordleSolver) word pat alpha topk restrict_guesses :
  candidates (guess zipf_frequency s word pat alpha topk restrict_guesses).1
    `sublist_of` candidates s.
Proof.
  destruct (guess_state s word pat alpha topk restrict_guesses)
    as (_ & _ & [-> | Hf]); [done|].
  by apply filter_candidates_sublist in Hf as [? _].
Qed.

Lemma guess_inv (s : WordleSolver) word pat alpha topk restrict_guesses :
  is_word word → solver_inv s →
  solver_inv (guess zipf_frequency s word pat alpha topk restrict_guesses).1.
Proof.
  intros Hw [Hall Hcands Hhist].
  pose proof (guess_state s word pat alpha topk restrict_guesses)
    as (Ha & Hh & _).
  pose proof (guess_state_words s word pat alpha topk restrict_guesses Hw Hcands)
    as Hc.
  cbn zeta in Ha, Hh. split.
  - by rewrite Ha.
  - rewrite Hc. by apply Forall_filter_keep.
  - intros w g p. rewrite Hc, Hh, list_elem_of_filter, elem_of_app,
      list_elem_of_singleton.
    intros [Hfb Hin] [Hold | [= -> ->]]; [by eapply Hhist | done].
Qed.

Lemma reset_inv (s : WordleSolver) : solver_inv s → solver_inv (reset s).
Proof.
  intros [Hall _ _]. split; simpl; [done | done |].
  intros w g p _ Hin. by apply elem_of_nil in Hin.
Qed.

Lemma run_calls_inv (cs : list call) :
  ∀ s, solver_inv s → Forall well_formed_call cs →
       solver_inv (run_calls zipf_frequency s cs).
Proof.
  induction cs as [|c cs IH]; intros s Hs Hwf; [done|].
  apply Forall_cons in Hwf as [Hc Hcs]. cbn [run_calls foldl].
  apply IH; [|done]. destruct c; simpl.
  - by apply guess_inv.
  - by apply reset_inv.
Qed.

Lemma run_guesses_sublist (cs : list call) :
  ∀ s, Forall is_guess_call cs →
       candidates (run_calls zipf_frequency s cs) `sublist_of` candidates s.
Proof.
  induction cs as [|c cs IH]; intros s Hcs; [done|].
  apply Forall_cons in Hcs as [Hc Hcs]. cbn [run_calls foldl].
  etrans; [by apply IH|]. destruct c; [|done]. apply guess_sublist.
Qed.

End Session.

(** ** The ranking order *)

Lemma str_compare_refl (s : string) : String.compare s s = Eq.
Proof.
  pose proof (String.compare_antisym s s) as H.
  destruct (String.compare s s); simpl in H; congruence.
Qed.

Lemma str_lt_irrefl (s : string) : ¬ str_lt s s.
Proof. unfold str_lt, String.ltb. rewrite str_compare_refl. by intros []. Qed.

Lemma not_str_lt (s1 s2 : string) : ¬ str_lt s2 s1 ↔ String.le s1 s2.
Proof.
  unfold str_lt, String.le, String.ltb, String.leb.
  rewrite (String.compare_antisym s2 s1).
  destruct (String.compare s1 s2); simpl; naive_solver.
Qed.

Lemma str_lt_of_le (a b : string) : String.le a b → a ≠ b → str_lt a b.
Proof.
  unfold String.le, str_lt, String.leb, String.ltb. intros Hle Hne.
  destruct (String.compare a b) eqn:Hcmp; [|done|done].
  by apply String.compare_eq_iff in Hcmp.
Qed.

(** [tuple_le] is the lexicographic order on (score, word). *)
Lemma tuple_le_lex (a b : R * string) :
  tuple_le a b ↔ (a.1 < b.1)%R ∨ (a.1 = b.1 ∧ String.le a.2 b.2).
Proof.
  unfold tuple_le, tuple_lt. destruct a as [s1 w1], b as [s2 w2]; simpl.
  destruct (decide (s2 = s1)) as [->|Hs].
  - destruct (decide (w2 = w1)) as [->|Hw].
    + split; [intros _; right; by split | tauto].
    + rewrite not_str_lt. split; [by right | intros [?%Rlt_irrefl | [_ ?]]; done].
  - split.
    + intros Hn. left. destruct (Rtotal_order s1 s2) as [?|[?|?]]; [done|congruence|done].
    + intros [Hlt | [-> _]]; [|done]. intros ?. by eapply Rlt_asym.
Qed.

Global Instance tuple_le_total : Total tuple_le.
Proof.
  intros a b. rewrite !tuple_le_lex.
  destruct (Rtotal_order a.1 b.1) as [?|[Heq|?]];
    [by left; left | | by right; left].
  destruct (total String.le a.2 b.2); [left | right]; right; by split.
Qed.

Global Instance tuple_le_trans : Transitive tuple_le.
Proof.
  intros a b c. rewrite !tuple_le_lex.
  intros [H1 | [H1 H1']] [H2 | [H2 H2']].
  - left. by eapply Rlt_trans.
  - left. by rewrite <- H2.
  - left. by rewrite H1.
  - right. split; [congruence | by etrans].
Qed.

Global Instance tuple_le_antisymm : AntiSymm (=) tuple_le.
Proof.
  intros [s1 w1] [s2 w2]. rewrite !tuple_le_lex. simpl.
  intros [H1 | [H1 H1']] [H2 | [H2 H2']].
  - by destruct (Rlt_asym _ _ H1).
  - subst. by apply Rlt_irrefl in H1.
  - subst. by apply Rlt_irrefl in H2.
  - f_equal; [done | by apply (anti_symm String.le)].
Qed.

Lemma sort_reverse_Permutation (scores : list (R * string)) :
  sort_reverse scores ≡ₚ scores.
Proof.
  unfold sort_reverse.
  by rewrite reverse_Permutation, merge_sort_Permutation, reverse_Permutation.
Qed.

(** The sorted list depends on the multiset of scores only, not on the
    order they were produced in. *)
Lemma sort_reverse_order_independent (scores scores' : list (R * string)) :
  scores ≡ₚ scores' → sort_reverse scores = sort_reverse scores'.
Proof.
  intros Hp. unfold sort_reverse. f_equal.
  apply (StronglySorted_unique tuple_le).
  - apply StronglySorted_merge_sort; apply _.
  - apply StronglySorted_merge_sort; apply _.
  - by rewrite !merge_sort_Permutation, !reverse_Permutation.
Qed.

Lemma slice_to_length {A : Type} (k : Z) (xs : list A) :
  0 ≤ k → Z.of_nat (length (slice_to k xs)) ≤ k.
Proof.
  intros Hk. unfold slice_to. rewrite bool_decide_true by done.
  rewrite length_take. lia.
Qed.

Lemma slice_to_prefix {A : Type} (k : Z) (xs : list A) :
  ∃ rest, xs = slice_to k xs ++ rest.
Proof.
  unfold slice_to. case_bool_decide; eexists; symmetry; apply take_drop.
Qed.

Lemma StronglySorted_slice_to {A : Type} (R : relation A) (k : Z) (xs : list A) :
  StronglySorted R xs → StronglySorted R (slice_to k xs).
Proof.
  destruct (slice_to_prefix k xs) as [rest Hrest]. rewrite Hrest at 1.
  apply StronglySorted_app_1_l.
Qed.

Lemma StronglySorted_with {A : Type} (R : relation A) (P : A → Prop) (l : list A) :
  StronglySorted R l → Forall P l →
  StronglySorted (λ a b, R a b ∧ P a ∧ P b) l.
Proof.
  induction 1 as [|a l Hs IH Hall]; intros HP; [constructor|].
  apply Forall_cons in HP as [Ha HP]. constructor; [by apply IH|].
  rewrite Forall_forall in Hall, HP |- *. intros b Hb. auto.
Qed.

(** ** Entropy Scorer: the partition counts *)

Lemma get_increment (k p : pattern) (acc : list (pattern * Z)) :
  get k (increment p acc) = get k acc + (if bool_decide (p = k) then 1 else 0).
Proof.
  induction acc as [|[q c] acc IH]; cbn [increment get].
  - case_bool_decide; lia.
  - destruct (decide (q = p)) as [->|Hqp].
    + rewrite (bool_decide_true (p = p)) by done. cbn [get].
      case_bool_decide; lia.
    + rewrite (bool_decide_false (q = p)) by done. cbn [get].
      destruct (decide (q = k)) as [->|Hqk].
      * rewrite (bool_decide_true (k = k)), (bool_decide_false (p = k)) by done. lia.
      * rewrite (bool_decide_false (q = k)) by done. apply IH.
Qed.

Lemma keys_increment (k p : pattern) (acc : list (pattern * Z)) :
  k ∈ (increment p acc).*1 ↔ k = p ∨ k ∈ acc.*1.
Proof.
  induction acc as [|[q c] acc IH]; cbn [increment].
  - cbn. rewrite list_elem_of_singleton, elem_of_nil. tauto.
  - case_bool_decide as Hq; cbn [fmap list_fmap fst].
    + subst q. rewrite !elem_of_cons. tauto.
    + rewrite !elem_of_cons. change (list_fmap _ _ fst ?l) with (l.*1).
      rewrite IH. tauto.
Qed.

Lemma NoDup_increment (p : pattern) (acc : list (pattern * Z)) :
  NoDup acc.*1 → NoDup (increment p acc).*1.
Proof.
  induction acc as [|[q c] acc IH]; cbn [increment].
  - intros _. cbn. apply NoDup_singleton.
  - case_bool_decide as Hq; [done|].
    cbn [fmap list_fmap fst]. change (list_fmap _ _ fst ?l) with (l.*1).
    rewrite !NoDup_cons, keys_increment. intros [Hq' Hnd].
    split; [tauto | by apply IH].
Qed.

Lemma sumZ_increment (p : pattern) (acc : list (pattern * Z)) :
  sumZ (increment p acc).*2 = sumZ acc.*2 + 1.
Proof.
  unfold sumZ. induction acc as [|[q c] acc IH]; cbn [increment].
  - cbn. lia.
  - case_bool_decide; cbn [fmap list_fmap snd foldr];
      change (list_fmap _ _ snd ?l) with (l.*2); lia.
Qed.

Lemma positive_increment (p : pattern) (acc : list (pattern * Z)) :
  Forall (λ c, 1 ≤ c) acc.*2 → Forall (λ c, 1 ≤ c) (increment p acc).*2.
Proof.
  induction acc as [|[q c] acc IH]; cbn [increment].
  - intros _. cbn. constructor; [lia | constructor].
  - case_bool_decide; cbn [fmap list_fmap snd];
      change (list_fmap _ _ snd ?l) with (l.*2);
      rewrite !Forall_cons; intros [? ?]; split; auto; lia.
Qed.

Lemma get_elem (k : pattern) (c : Z) (acc : list (pattern * Z)) :
  NoDup acc.*1 → (k, c) ∈ acc → get k acc = c.
Proof.
  induction acc as [|[q c'] acc IH]; [by intros _ ?%elem_of_nil|].
  cbn [fmap list_fmap fst get]. change (list_fmap _ _ fst ?l) with (l.*1).
  rewrite NoDup_cons, elem_of_cons. intros [Hq Hnd] [[= <- <-] | Hin].
  - by rewrite bool_decide_true.
  - rewrite bool_decide_false; [by apply IH|].
    intros ->. apply Hq. apply list_elem_of_fmap. by exists (k, c).
Qed.

Lemma occurrences_cons (k p : pattern) (ps : list pattern) :
  occurrences k (p :: ps)
  = (if bool_decide (p = k) then 1 else 0) + occurrences k ps.
Proof.
  unfold occurrences. cbn [count_occ].
  destruct (decide (p = k)); [rewrite bool_decide_true by done
                             | rewrite bool_decide_false by done]; lia.
Qed.

Lemma tally_get (k : pattern) (ps : list pattern) :
  ∀ acc, get k (tally ps acc) = get k acc + occurrences k ps.
Proof.
  induction ps as [|p ps IH]; intros acc; cbn [tally foldl].
  - unfold occurrences. cbn. lia.
  - fold (tally ps (increment p acc)).
    rewrite IH, get_increment, occurrences_cons. lia.
Qed.

Lemma tally_keys (k : pattern) (ps : list pattern) :
  ∀ acc, k ∈ (tally ps acc).*1 ↔ k ∈ acc.*1 ∨ k ∈ ps.
Proof.
  induction ps as [|p ps IH]; intros acc; cbn [tally foldl].
  - rewrite elem_of_nil. tauto.
  - fold (tally ps (increment p acc)).
    rewrite IH, keys_increment, elem_of_cons. tauto.
Qed.

Lemma tally_NoDup (ps : list pattern) :
  ∀ acc, NoDup acc.*1 → NoDup (tally ps acc).*1.
Proof.
  induction ps as [|p ps IH]; intros acc Hnd; [done|].
  cbn [tally foldl]. by apply IH, NoDup_increment.
Qed.

Lemma tally_sumZ (ps : list pattern) :
  ∀ acc, sumZ (tally ps acc).*2 = sumZ acc.*2 + Z.of_nat (length ps).
Proof.
  induction ps as [|p ps IH]; intros acc; cbn [tally foldl length].
  - lia.
  - fold (tally ps (increment p acc)). rewrite IH, sumZ_increment. lia.
Qed.

Lemma tally_positive (ps : list pattern) :
  ∀ acc, Forall (λ c, 1 ≤ c) acc.*2 → Forall (λ c, 1 ≤ c) (tally ps acc).*2.
Proof.
  induction ps as [|p ps IH]; intros acc Hacc; [done|].
  cbn [tally foldl]. by apply IH, positive_increment.
Qed.

(** The partitions hold exactly the patterns that occur, each with the
    number of candidates that produce it. *)
Lemma tally_spec (ps : list pattern) (k : pattern) (c : Z) :
  (k, c) ∈ tally ps [] ↔ k ∈ ps ∧ c = occurrences k ps.
Proof.
  pose proof (tally_NoDup ps [] (NoDup_nil_2)) as Hnd.
  split.
  - intros Hin. split.
    + assert (Hk : k ∈ (tally ps []).*1).
      { apply list_elem_of_fmap. by exists (k, c). }
      apply tally_keys in Hk as [Hk%elem_of_nil | Hk]; done.
    + apply (get_elem _ _ _ Hnd) in Hin. rewrite tally_get in Hin.
      cbn in Hin. lia.
  - intros [Hk ->].
    assert (Hk' : k ∈ (tally ps []).*1) by (apply tally_keys; by right).
    apply list_elem_of_fmap in Hk' as ([k' c] & -> & Hin).
    pose proof (get_elem _ _ _ Hnd Hin) as Hget.
    rewrite tally_get in Hget. cbn in Hget. cbn [fst].
    replace (occurrences k' ps) with c by lia. done.
Qed.

Lemma tally_counts (ps : list pattern) (c : Z) :
  c ∈ (tally ps []).*2 ↔ ∃ k, k ∈ ps ∧ c = occurrences k ps.
Proof.
  rewrite list_elem_of_fmap. split.
  - intros ([k c'] & -> & [Hk ->]%tally_spec). eauto.
  - intros (k & Hk & ->). exists (k, occurrences k ps).
    split; [done | by apply tally_spec].
Qed.

Lemma occurrences_pos (k : pattern) (ps : list pattern) :
  k ∈ ps → 1 ≤ occurrences k ps.
Proof.
  intros Hk%list_elem_of_In. unfold occurrences.
  apply (count_occ_In (λ x y, decide (x = y))) in Hk. lia.
Qed.

Lemma occurrences_all (k : pattern) (ps : list pattern) :
  (∀ q, q ∈ ps → q = k) → occurrences k ps = Z.of_nat (length ps).
Proof.
  unfold occurrences. induction ps as [|p ps IH]; intros Hall; [done|].
  rewrite (Hall p) by left. rewrite count_occ_cons_eq by done.
  cbn [length]. rewrite !Nat2Z.inj_succ, IH; [done|].
  intros q Hq. apply Hall. by right.
Qed.

(** Every count is the number of candidates exactly when the candidates
    all produce one pattern. *)
Lemma tally_single_partition (ps : list pattern) :
  Forall (λ c, c = Z.of_nat (length ps)) (tally ps []).*2
  ↔ ∀ p q, p ∈ ps → q ∈ ps → p = q.
Proof.
  rewrite Forall_forall. split.
  - intros Hall p q Hp Hq.
    assert (Hocc : occurrences p ps = Z.of_nat (length ps)).
    { apply Hall, tally_counts. eauto. }
    unfold occurrences in Hocc. apply Nat2Z.inj, count_occ_unique in Hocc.
    rewrite Hocc in Hq. apply list_elem_of_In, repeat_spec in Hq. done.
  - intros Hsame c (k & Hk & ->)%tally_counts.
    apply occurrences_all. intros q Hq. by apply Hsame.
Qed.

(** Every count is 1 exactly when no two candidates produce the same
    pattern. *)
Lemma tally_all_distinct (ps : list pattern) :
  Forall (λ c, c = 1) (tally ps []).*2 ↔ NoDup ps.
Proof.
  rewrite Forall_forall, NoDup_ListNoDup,
    (NoDup_count_occ (λ x y, decide (x = y))). split.
  - intros Hall k. destruct (decide (k ∈ ps)) as [Hk|Hk].
    + assert (occurrences k ps = 1) as Hocc by (apply Hall, tally_counts; eauto).
      unfold occurrences in Hocc. lia.
    + rewrite list_elem_of_In in Hk.
      apply (count_occ_not_In (λ x y, decide (x = y))) in Hk. lia.
  - intros Hle c (k & Hk & ->)%tally_counts.
    pose proof (occurrences_pos k ps Hk). specialize (Hle k).
    unfold occurrences in *. lia.
Qed.

Lemma sumZ_bound (cs : list Z) (c : Z) :
  Forall (λ c, 1 ≤ c) cs → c ∈ cs → c ≤ sumZ cs.
Proof.
  unfold sumZ. induction 1 as [|c' cs Hc' Hcs IH]; [by intros ?%elem_of_nil|].
  assert (0 ≤ foldr Z.add 0 cs).
  { clear IH. induction Hcs; cbn; lia. }
  rewrite elem_of_cons. intros [-> | Hin]; cbn; [lia|].
  specialize (IH Hin). lia.
Qed.

(** The counting loop on words: it does not raise and leaves the tally of
    the reference patterns. *)
Lemma count_partitions_words (guess : string) (cands : list string) :
  is_word guess → Forall is_word cands →
  ∀ acc, count_partitions guess cands acc
         = Ok (tally (feedback_reference guess <$> cands) acc).
Proof.
  intros Hg. induction 1 as [|w cands Hw Hc IH]; intros acc; [done|].
  cbn [count_partitions]. rewrite feedback_pattern_reference by done.
  cbn [mbind Res_bind]. rewrite IH. done.
Qed.

(** ** Entropy Scorer: the value *)

Lemma ln2_pos : (0 < ln 2)%R.
Proof. pose proof ln_lt_2. lra. Qed.

Lemma ln_IZR_nonneg (c : Z) : 1 ≤ c → (0 <= ln (IZR c))%R.
Proof.
  intros Hc. destruct (decide (c = 1)) as [->|Hne].
  - rewrite ln_1. lra.
  - left. rewrite <- ln_1. apply ln_increasing; [lra|]. apply IZR_lt. lia.
Qed.

Lemma ln_IZR_zero (c : Z) : 1 ≤ c → ln (IZR c) = 0%R → c = 1.
Proof.
  intros Hc Hln. destruct (decide (c = 1)) as [|Hne]; [done|].
  assert (0 < ln (IZR c))%R; [|lra].
  rewrite <- ln_1. apply ln_increasing; [lra|]. apply IZR_lt. lia.
Qed.

Lemma prob_pos (c n : Z) : 1 ≤ c → 1 ≤ n → (0 < IZR c / IZR n)%R.
Proof.
  intros Hc Hn. apply Rdiv_lt_0_compat; apply IZR_lt; lia.
Qed.

Lemma ln_prob (c n : Z) :
  1 ≤ c → 1 ≤ n → ln (IZR c / IZR n) = (ln (IZR c) - ln (IZR n))%R.
Proof.
  intros Hc Hn.
  assert (0 < IZR c)%R by (apply IZR_lt; lia).
  assert (0 < IZR n)%R by (apply IZR_lt; lia).
  unfold Rdiv. rewrite ln_mult, ln_Rinv; [lra | done | done |].
  by apply Rinv_0_lt_compat.
Qed.

Lemma accumulate_entropy_Ok (counts : list Z) (total : Z) :
  1 ≤ total → Forall (λ c, 1 ≤ c) counts →
  ∀ e, accumulate_entropy counts total e = Ok (e - entropy_sum counts total)%R.
Proof.
  intros Hn. induction 1 as [|c counts Hc _ IH]; intros e.
  - cbn. f_equal. lra.
  - cbn [accumulate_entropy]. unfold true_div, log2.
    rewrite bool_decide_false by lia. cbn [mbind Res_bind].
    destruct (Rlt_dec 0 (IZR c / IZR total)) as [_|Hneg].
    + cbn [mbind Res_bind]. rewrite IH. f_equal.
      cbn [entropy_sum foldr]. fold (entropy_sum counts total).
      unfold entropy_term. lra.
    + destruct Hneg. by apply prob_pos.
Qed.

Lemma entropy_term_nonpos (c n : Z) :
  1 ≤ c ≤ n → (entropy_term c n <= 0)%R ∧ (entropy_term c n = 0%R ↔ c = n).
Proof.
  intros [Hc Hcn]. unfold entropy_term.
  pose proof ln2_pos as Hln2.
  pose proof (prob_pos c n Hc ltac:(lia)) as Hp.
  assert (Hn : (0 < IZR n)%R) by (apply IZR_lt; lia).
  destruct (decide (c = n)) as [->|Hne].
  - replace (IZR n / IZR n)%R with 1%R by (field; lra).
    rewrite ln_1. split; [lra|]. split; [done | intros _; lra].
  - assert (Hlt : (IZR c / IZR n < 1)%R).
    { apply (Rmult_lt_reg_r (IZR n)); [done|].
      replace (IZR c / IZR n * IZR n)%R with (IZR c) by (field; lra).
      rewrite Rmult_1_l. apply IZR_lt. lia. }
    assert (Hln : (ln (IZR c / IZR n) < 0)%R).
    { rewrite <- ln_1. by apply ln_increasing. }
    assert (Hq : (ln (IZR c / IZR n) / ln 2 < 0)%R).
    { apply (Rmult_lt_reg_r (ln 2)); [done|].
      replace (ln (IZR c / IZR n) / ln 2 * ln 2)%R
        with (ln (IZR c / IZR n)) by (field; lra). lra. }
    assert (IZR c / IZR n * (ln (IZR c / IZR n) / ln 2) < 0)%R; [|split; [lra|]; split; [lra | done]].
    rewrite <- (Rmult_0_r (IZR c / IZR n)). by apply Rmult_lt_compat_l.
Qed.

Lemma entropy_sum_nonpos (counts : list Z) (n : Z) :
  Forall (λ c, 1 ≤ c ≤ n) counts →
  (entropy_sum counts n <= 0)%R
  ∧ (entropy_sum counts n = 0%R ↔ Forall (λ c, c = n) counts).
Proof.
  induction 1 as [|c counts Hc _ [IHle IHeq]]; cbn [entropy_sum foldr].
  - split; [lra|]. split; [constructor | done].
  - fold (entropy_sum counts n).
    destruct (entropy_term_nonpos c n Hc) as [Hle Heq]. split; [lra|].
    rewrite Forall_cons, <- IHeq, <- Heq. split; [split; lra | intros [-> ->]; lra].
Qed.

Lemma entropy_sum_split (counts : list Z) (n : Z) :
  1 ≤ n → Forall (λ c, 1 ≤ c) counts →
  (- entropy_sum counts n
   = ln (IZR n) / ln 2 * (IZR (sumZ counts) / IZR n)
     - weighted_logs counts / (IZR n * ln 2))%R.
Proof.
  intros Hn. pose proof ln2_pos as Hln2.
  assert (Hn' : (0 < IZR n)%R) by (apply IZR_lt; lia).
  induction 1 as [|c counts Hc _ IH];
    cbn [entropy_sum weighted_logs sumZ foldr].
  - field. lra.
  - fold (entropy_sum counts n). fold (weighted_logs counts).
    fold (sumZ counts). rewrite plus_IZR, Ropp_plus_distr, IH.
    unfold entropy_term. rewrite ln_prob by done. field. lra.
Qed.

Lemma weighted_logs_nonneg (counts : list Z) :
  Forall (λ c, 1 ≤ c) counts →
  (0 <= weighted_logs counts)%R
  ∧ (weighted_logs counts = 0%R ↔ Forall (λ c, c = 1) counts).
Proof.
  induction 1 as [|c counts Hc _ [IHle IHeq]]; cbn [weighted_logs foldr].
  - split; [lra|]. split; [constructor | done].
  - fold (weighted_logs counts).
    pose proof (ln_IZR_nonneg c Hc) as Hln.
    assert (Hc' : (1 <= IZR c)%R) by (apply IZR_le; lia).
    assert (Hprod : (0 <= IZR c * ln (IZR c))%R) by (apply Rmult_le_pos; lra).
    split; [lra|]. rewrite Forall_cons, <- IHeq. split.
    + intros Hsum. assert (Hz : (IZR c * ln (IZR c) = 0)%R) by lra.
      split; [|lra]. apply ln_IZR_zero; [done|].
      apply Rmult_integral in Hz as [Hz|Hz]; [lra | done].
    + intros [-> ->]. rewrite ln_1. lra.
Qed.

(** On words the scorer does not raise; its value is the negated sum of
    the partition terms. *)
Lemma expected_entropy_words (guess : string) (cands : list string) :
  is_word guess → Forall is_word cands → cands ≠ [] →
  expected_entropy guess cands
  = Ok (0 - entropy_sum (tally (feedback_reference guess <$> cands) []).*2
                        (Z.of_nat (length cands)))%R.
Proof.
  intros Hg Hc Hne. unfold expected_entropy.
  rewrite count_partitions_words by done. cbn [mbind Res_bind].
  apply accumulate_entropy_Ok.
  - destruct cands; [done | cbn [length]; lia].
  - apply tally_positive. constructor.
Qed.

Lemma expected_entropy_nil (guess : string) : expected_entropy guess [] = Ok 0%R.
Proof. reflexivity. Qed.

Lemma expected_entropy_total (guess : string) (cands : list string) :
  is_word guess → Forall is_word cands → ∃ h, expected_entropy guess cands = Ok h.
Proof.
  intros Hg Hc. destruct (decide (cands = [])) as [->|Hne].
  - eexists. apply expected_entropy_nil.
  - eexists. by apply expected_entropy_words.
Qed.

(** ** Hybrid Ranker *)

Lemma py_clamp (freq : R) : py_max (py_min freq 7) 1 = clamp 1 7 freq.
Proof.
  unfold py_max, py_min, clamp, Rmax, Rmin.
  repeat (destruct (Rlt_dec _ _) || destruct (Rle_dec _ _)); lra.
Qed.

Lemma freq_norm_range (freq : R) : (0 <= freq_norm freq <= 1)%R.
Proof.
  unfold freq_norm, rescale, clamp, Rmax, Rmin.
  repeat destruct (Rle_dec _ _); lra.
Qed.

Lemma freq_norm_low (freq : R) : (freq <= 1)%R → freq_norm freq = 0%R.
Proof.
  intros Hf. unfold freq_norm, rescale, clamp, Rmax, Rmin.
  repeat destruct (Rle_dec _ _); lra.
Qed.

Section Ranking.

Variable zipf_frequency : string → string → R.

Lemma hybrid_score_Ok (guess : string) (cands : list string) (alpha h : R) :
  expected_entropy guess cands = Ok h →
  hybrid_score zipf_frequency guess cands alpha
  = Ok (alpha * h + (1 - alpha) * freq_norm (zipf_frequency guess "en"))%R.
Proof.
  intros Hh. unfold hybrid_score. rewrite Hh. cbn [mbind Res_bind].
  rewrite py_clamp. unfold freq_norm, rescale.
  by replace (7 - 1)%R with 6%R by lra.
Qed.

Lemma hybrid_score_total (guess : string) (cands : list string) (alpha : R) :
  is_word guess → Forall is_word cands →
  ∃ s, hybrid_score zipf_frequency guess cands alpha = Ok s.
Proof.
  intros Hg Hc. destruct (expected_entropy_total guess cands Hg Hc) as [h Hh].
  eexists. by apply hybrid_score_Ok.
Qed.

(** ** Parallel Dispatcher *)

Lemma serial_parallel_scores (pool cands : list string) (alpha : R) :
  serial_scores zipf_frequency pool cands alpha
  = parallel_scores zipf_frequency pool cands alpha.
Proof.
  unfold parallel_scores. induction pool as [|w pool IH]; [done|].
  cbn [serial_scores fmap list_fmap mapM _score_word_worker].
  destruct (hybrid_score zipf_frequency w cands alpha) as [s|e]; [|done].
  cbn [mbind Res_bind]. by rewrite IH.
Qed.

Lemma serial_scores_Ok_inv (pool cands : list string) (alpha : R) :
  ∀ scores, serial_scores zipf_frequency pool cands alpha = Ok scores →
    scores.*2 = pool
    ∧ Forall (λ sw, hybrid_score zipf_frequency sw.2 cands alpha = Ok sw.1) scores.
Proof.
  induction pool as [|w pool IH]; intros scores; cbn [serial_scores].
  - intros [= <-]. by split.
  - intros (s & Hs & (r & Hr & [= <-])%bind_Ok)%bind_Ok.
    destruct (IH r Hr) as [<- Hall]. split; [done|]. by constructor.
Qed.

Lemma serial_scores_total (pool cands : list string) (alpha : R) :
  Forall is_word pool → Forall is_word cands →
  ∃ scores, serial_scores zipf_frequency pool cands alpha = Ok scores.
Proof.
  intros Hp Hc. induction Hp as [|w pool Hw _ [r Hr]]; [by eexists|].
  destruct (hybrid_score_total w cands alpha Hw Hc) as [s Hs].
  exists ((s, w) :: r). cbn [serial_scores]. by rewrite Hs, Hr.
Qed.

Lemma suggest_guesses_serial (cands all : list string) (alpha : R) (topk : Z)
    (restrict_guesses : bool) :
  suggest_guesses zipf_frequency cands all alpha topk restrict_guesses
  = suggest_serial zipf_frequency (if restrict_guesses then cands else all)
      cands alpha topk.
Proof.
  unfold suggest_guesses, suggest_parallel, suggest_serial.
  case_bool_decide; [done|]. by rewrite serial_parallel_scores.
Qed.

End Ranking.

Lemma patterns_words (guess : string) (cands : list string) :
  is_word guess → Forall is_word cands →
  feedback_pattern guess <$> cands = Ok <$> (feedback_reference guess <$> cands).
Proof.
  intros Hg. induction 1 as [|w cands Hw _ IH]; [done|].
  cbn [fmap list_fmap]. f_equal; [by apply feedback_pattern_reference | exact IH].
Qed.

Global Instance Ok_inj {A : Type} : Inj (=) (=) (@Ok A).
Proof. by intros x y [= ->]. Qed.

(** ** Merge sort under two relations that agree on the elements *)

Section MergeSortAgree.

Context {A : Type} (R1 R2 : relation A) (P : A → Prop).
Context `{!∀ x y, Decision (R1 x y)} `{!∀ x y, Decision (R2 x y)}.
Hypothesis agree : ∀ x y, P x → P y → (R1 x y ↔ R2 x y).

Local Abbreviation stack_on st :=
  (Forall (λ o : option (list A), from_option (Forall P) True o) st).

Lemma list_merge_agree (l1 l2 : list A) :
  Forall P l1 → Forall P l2 → list_merge R1 l1 l2 = list_merge R2 l1 l2.
Proof.
  intros H1. revert l2. induction H1 as [|x1 l1 Hx1 H1 IH1]; intros l2 H2.
  { by rewrite !list_merge_nil_l. }
  induction H2 as [|x2 l2 Hx2 H2 IH2]; [by rewrite !list_merge_nil_r|].
  rewrite !list_merge_cons.
  pose proof (agree x1 x2 Hx1 Hx2) as Hag.
  destruct (decide (R1 x1 x2)), (decide (R2 x1 x2)); try tauto.
  - f_equal. apply IH1. by constructor.
  - f_equal. exact IH2.
Qed.

Lemma list_merge_Forall (l1 l2 : list A) :
  Forall P l1 → Forall P l2 → Forall P (list_merge R1 l1 l2).
Proof. intros. rewrite merge_Permutation. by apply Forall_app. Qed.

Lemma merge_list_to_stack_agree (st : list (option (list A))) :
  stack_on st → ∀ l, Forall P l →
  merge_list_to_stack R1 st l = merge_list_to_stack R2 st l
  ∧ stack_on (merge_list_to_stack R1 st l).
Proof.
  induction 1 as [|[l'|] st Hl' Hst IH]; intros l Hl; simpl.
  - split; [done|]. by repeat constructor.
  - simpl in Hl'.
    destruct (IH (list_merge R1 l' l) (list_merge_Forall _ _ Hl' Hl)) as [Heq Hon].
    split; [|by constructor].
    by rewrite <- (list_merge_agree l' l), Heq.
  - split; [done|]. by constructor.
Qed.

Lemma merge_stack_agree (st : list (option (list A))) :
  stack_on st →
  merge_stack R1 st = merge_stack R2 st ∧ Forall P (merge_stack R1 st).
Proof.
  induction 1 as [|[l|] st Hl Hst [IH1 IH2]]; simpl; [done| |done].
  simpl in Hl. rewrite <- IH1.
  split; [by apply list_merge_agree | by apply list_merge_Forall].
Qed.

Lemma merge_sort_aux_agree (l : list A) :
  ∀ st, stack_on st → Forall P l →
        merge_sort_aux R1 st l = merge_sort_aux R2 st l.
Proof.
  induction l as [|x l IH]; intros st Hst Hl; simpl.
  - by apply merge_stack_agree.
  - apply Forall_cons in Hl as [Hx Hl].
    destruct (merge_list_to_stack_agree st Hst [x]) as [Heq Hon];
      [by repeat constructor|].
    rewrite <- Heq. by apply IH.
Qed.

Lemma merge_sort_agree (l : list A) :
  Forall P l → merge_sort R1 l = merge_sort R2 l.
Proof. intros. apply merge_sort_aux_agree; [constructor | done]. Qed.

End MergeSortAgree.

(** ** The ranking over doubles *)

Section DoublesOrder.

Variable A : Doubles.arithmetic.
Hypothesis ordered : Doubles.ordered A.

Local Abbreviation not_nan := (Doubles.not_nan A).
Local Abbreviation flt := (Doubles.flt A).
Local Abbreviation feq := (Doubles.feq A).

Lemma flt_irrefl (x : Doubles.double A) : not_nan x → flt x x = false.
Proof.
  intros Hx. destruct (flt x x) eqn:Hlt; [|done].
  pose proof (Doubles.flt_not_feq A ordered x x Hx Hx Hlt) as Hne.
  unfold Doubles.not_nan in Hx. congruence.
Qed.

Lemma flt_asym (x y : Doubles.double A) :
  not_nan x → not_nan y → flt x y = true → flt y x = false.
Proof.
  intros Hx Hy Hlt. destruct (flt y x) eqn:Hgt; [|done].
  pose proof (Doubles.flt_trans A ordered x y x Hx Hy Hx Hlt Hgt) as Hxx.
  by rewrite flt_irrefl in Hxx.
Qed.

(** On scores that are not NaN the tuple order is the lexicographic one. *)
Lemma double_tuple_lt_lex (a b : Doubles.double A * string) :
  not_nan a.1 → not_nan b.1 →
  Doubles.tuple_lt A a b
  ↔ flt a.1 b.1 = true ∨ (feq a.1 b.1 = true ∧ str_lt a.2 b.2).
Proof.
  intros Ha Hb. unfold Doubles.tuple_lt.
  destruct (feq a.1 b.1) eqn:Heq.
  - assert (Hn : flt a.1 b.1 = false).
    { destruct (flt a.1 b.1) eqn:Hlt; [|done].
      pose proof (Doubles.flt_not_feq A ordered _ _ Ha Hb Hlt). congruence. }
    destruct (decide (a.2 = b.2)) as [Hw|Hw].
    + split; [done|]. intros [?|[_ Hs]]; [congruence|].
      rewrite Hw in Hs. by apply str_lt_irrefl in Hs.
    + split; [by right|]. intros [?|[_ ?]]; [congruence|done].
  - split; [by left|]. intros [?|[? _]]; [done|congruence].
Qed.

Lemma double_tuple_le_lex (a b : Doubles.double A * string) :
  not_nan a.1 → not_nan b.1 →
  Doubles.tuple_le A a b
  ↔ flt a.1 b.1 = true ∨ (feq a.1 b.1 = true ∧ String.le a.2 b.2).
Proof.
  intros Ha Hb. unfold Doubles.tuple_le. rewrite double_tuple_lt_lex by done.
  split.
  - intros Hn.
    destruct (Doubles.flt_total A ordered _ _ Ha Hb) as [Hlt|[Heq|Hgt]];
      [by left| |tauto].
    right. split; [done|]. apply not_str_lt. intros Hs. apply Hn. right.
    split; [by apply (Doubles.feq_sym A ordered)|done].
  - intros [Hlt|[Heq Hle]] [Hgt|[Heq' Hs]].
    + by rewrite (flt_asym _ _ Ha Hb Hlt) in Hgt.
    + pose proof (Doubles.flt_not_feq A ordered _ _ Ha Hb Hlt) as Hne.
      rewrite (Doubles.feq_sym A ordered _ _ Hb Ha Heq') in Hne. done.
    + pose proof (Doubles.flt_not_feq A ordered _ _ Hb Ha Hgt) as Hne.
      rewrite (Doubles.feq_sym A ordered _ _ Ha Hb Heq) in Hne. done.
    + by apply not_str_lt in Hle.
Qed.

Global Instance tuple_le_all_total : Total (Doubles.tuple_le_all A).
Proof.
  intros a b. unfold Doubles.tuple_le_all.
  destruct (feq a.1 a.1) eqn:Ha; [|by left; left].
  destruct (feq b.1 b.1) eqn:Hb; [|by right; left].
  rewrite !double_tuple_le_lex by done.
  destruct (Doubles.flt_total A ordered _ _ Ha Hb) as [Hlt|[Heq|Hgt]].
  - left. right. auto.
  - destruct (total String.le a.2 b.2); [left | right]; right;
      (split; [done|]); (split; [done|]); right; split; try done.
    by apply (Doubles.feq_sym A ordered).
  - right. right. auto.
Qed.

Global Instance tuple_le_all_trans : Transitive (Doubles.tuple_le_all A).
Proof.
  intros a b c [Ha|(Ha & Hb & Hab)] [Hb'|(Hb' & Hc & Hbc)]; [by left..| |].
  { unfold Doubles.not_nan in Hb. congruence. }
  right. split; [done|]. split; [done|].
  apply double_tuple_le_lex in Hab, Hbc; [|done..].
  apply double_tuple_le_lex; [done..|].
  destruct Hab as [H1 | [H1 H1']], Hbc as [H2 | [H2 H2']].
  - left. by apply (Doubles.flt_trans A ordered _ b.1).
  - left. by apply (Doubles.flt_feq_r A ordered _ b.1).
  - left. apply (Doubles.flt_feq_l A ordered b.1); [done..| |done].
    by apply (Doubles.feq_sym A ordered).
  - right. split; [by apply (Doubles.feq_trans A ordered _ b.1) | by etrans].
Qed.

Lemma double_sort_reverse_all (scores : list (Doubles.double A * string)) :
  Forall (λ sw, not_nan sw.1) scores →
  Doubles.sort_reverse A scores
  = reverse (merge_sort (Doubles.tuple_le_all A) (reverse scores)).
Proof.
  intros Hnn. unfold Doubles.sort_reverse. f_equal.
  apply (merge_sort_agree _ _ (λ sw, not_nan sw.1)).
  - intros x y Hx Hy. unfold Doubles.tuple_le_all. split; [by right; auto|].
    intros [Hf|(_ & _ & Hle)]; [|done].
    unfold Doubles.not_nan in Hx. congruence.
  - by apply Forall_reverse.
Qed.

Lemma double_sort_reverse_Permutation (scores : list (Doubles.double A * string)) :
  Doubles.sort_reverse A scores ≡ₚ scores.
Proof.
  unfold Doubles.sort_reverse.
  by rewrite reverse_Permutation, merge_sort_Permutation, reverse_Permutation.
Qed.

(** Scores that are not NaN, no word twice: the sorted list is strictly
    descending. *)
Lemma double_sort_reverse_strict (scores : list (Doubles.double A * string)) :
  Forall (λ sw, not_nan sw.1) scores → NoDup scores.*2 →
  StronglySorted (λ a b, Doubles.tuple_lt A b a) (Doubles.sort_reverse A scores).
Proof.
  intros Hnn Hnd.
  assert (Hs : StronglySorted (flip (Doubles.tuple_le_all A))
                 (Doubles.sort_reverse A scores)).
  { rewrite double_sort_reverse_all by done. apply Sorted_StronglySorted.
    - intros a b c ??. by trans b.
    - apply Sorted_reverse, Sorted_merge_sort, _. }
  rewrite <- (double_sort_reverse_Permutation scores) in Hnn, Hnd.
  induction Hs as [|a l Hs IH Hall]; [constructor|].
  rewrite fmap_cons in Hnd. apply NoDup_cons in Hnd as [Hnotin Hnd].
  apply Forall_cons in Hnn as [Ha Hnn]. constructor; [by apply IH|].
  rewrite Forall_forall in Hall, Hnn |- *. intros b Hb.
  destruct (Hall b Hb) as [Hf | (_ & _ & Hle)].
  { specialize (Hnn b Hb). unfold Doubles.not_nan in Hnn. congruence. }
  apply double_tuple_le_lex in Hle; [|by auto..].
  apply double_tuple_lt_lex; [by auto..|].
  destruct Hle as [?|[? Hle]]; [by left|right]. split; [done|].
  apply str_lt_of_le; [done|]. intros Heq. apply Hnotin. rewrite <- Heq.
  apply list_elem_of_fmap. by exists b.
Qed.

Variable zipf_frequency : string → string → Doubles.double A.

Lemma double_serial_parallel_scores (pool cands : list string)
    (alpha : Doubles.double A) :
  Doubles.serial_scores A zipf_frequency pool cands alpha
  = Doubles.parallel_scores A zipf_frequency pool cands alpha.
Proof.
  unfold Doubles.parallel_scores. induction pool as [|w pool IH]; [done|].
  cbn [Doubles.serial_scores fmap list_fmap mapM Doubles._score_word_worker].
  destruct (Doubles.hybrid_score A zipf_frequency w cands alpha) as [s|e]; [|done].
  cbn [mbind Res_bind]. by rewrite IH.
Qed.

Lemma double_suggest_guesses_serial (cands all : list string)
    (alpha : Doubles.double A) (topk : Z) (restrict_guesses : bool) :
  Doubles.suggest_guesses A zipf_frequency cands all alpha topk restrict_guesses
  = Doubles.suggest_serial A zipf_frequency
      (if restrict_guesses then cands else all) cands alpha topk.
Proof.
  unfold Doubles.suggest_guesses, Doubles.suggest_parallel, Doubles.suggest_serial.
  case_bool_decide; [done|]. by rewrite double_serial_parallel_scores.
Qed.

(** When every pool word gets a score that is not NaN, the scoring loop
    returns those scores, in pool order, and the sorted list is strictly
    descending. *)
Lemma double_ranking (pool cands : list string) (alpha : Doubles.double A) :
  NoDup pool →
  (∀ w, w ∈ pool →
        ∃ s, Doubles.hybrid_score A zipf_frequency w cands alpha = Ok s ∧ not_nan s) →
  ∃ scores,
    Doubles.serial_scores A zipf_frequency pool cands alpha = Ok scores
    ∧ scores.*2 = pool
    ∧ StronglySorted
        (λ a b, Doubles.tuple_lt A b a
                ∧ (Doubles.hybrid_score A zipf_frequency a.2 cands alpha = Ok a.1
                   ∧ not_nan a.1)
                ∧ (Doubles.hybrid_score A zipf_frequency b.2 cands alpha = Ok b.1
                   ∧ not_nan b.1))
        (Doubles.sort_reverse A scores).
Proof.
  intros Hnd Hscore.
  assert (Hs : ∃ scores,
             Doubles.serial_scores A zipf_frequency pool cands alpha = Ok scores
             ∧ scores.*2 = pool
             ∧ Forall (λ sw, Doubles.hybrid_score A zipf_frequency sw.2 cands alpha
                             = Ok sw.1 ∧ not_nan sw.1) scores).
  { clear Hnd. induction pool as [|w pool IH]; [by exists []|].
    destruct (Hscore w) as (s & Hs & Hn); [apply list_elem_of_here|].
    destruct IH as (r & Hr & Hwords & Hall).
    { intros w' Hw'. apply Hscore. by apply list_elem_of_further. }
    exists ((s, w) :: r). cbn [Doubles.serial_scores]. rewrite Hs, Hr.
    split; [done|]. split; [by rewrite fmap_cons, Hwords|]. by constructor. }
  destruct Hs as (scores & Hs & Hwords & Hall).
  exists scores. split; [done|]. split; [done|].
  apply StronglySorted_with.
  - apply double_sort_reverse_strict; [|by rewrite Hwords].
    eapply Forall_impl; [exact Hall|]. by intros sw [_ ?].
  - by rewrite double_sort_reverse_Permutation.
Qed.

End DoublesOrder.

(** The idealised model is the instance of the scoring path at the real
    numbers. *)
Lemma real_arithmetic_ordered : Doubles.ordered Doubles.real_arithmetic.
Proof.
  split; unfold Doubles.not_nan; cbn; intros;
    repeat match goal with
           | H : bool_decide _ = true |- _ => apply bool_decide_eq_true in H
           end;
    rewrite ?bool_decide_eq_true, ?bool_decide_eq_false; lra.
Qed.

Lemma real_accumulate_entropy (counts : list Z) (total : Z) :
  ∀ entropy,
    Doubles.accumulate_entropy Doubles.real_arithmetic counts total entropy
    = accumulate_entropy counts total entropy.
Proof.
  induction counts as [|c counts IH]; intros entropy; [done|].
  cbn [Doubles.accumulate_entropy accumulate_entropy].
  unfold Doubles.true_div, true_div. case_bool_decide; [done|].
  cbn [mbind Res_bind Doubles.math_log2 Doubles.real_arithmetic Doubles.int_truediv].
  destruct (log2 _) as [l|e]; [|done]. cbn [mbind Res_bind]. apply IH.
Qed.

Lemma real_expected_entropy (guess : string) (cands : list string) :
  Doubles.expected_entropy Doubles.real_arithmetic guess cands
  = expected_entropy guess cands.
Proof.
  unfold Doubles.expected_entropy, expected_entropy.
  destruct (count_partitions guess cands []) as [ps|e]; [|done].
  cbn [mbind Res_bind]. apply real_accumulate_entropy.
Qed.

Lemma real_hybrid_score (zipf_frequency : string → string → R)
    (guess : string) (cands : list string) (alpha : R) :
  Doubles.hybrid_score Doubles.real_arithmetic zipf_frequency guess cands alpha
  = hybrid_score zipf_frequency guess cands alpha.
Proof.
  unfold Doubles.hybrid_score, hybrid_score. rewrite real_expected_entropy.
  destruct (expected_entropy guess cands) as [h|e]; [|done].
  cbn [mbind Res_bind]. do 2 f_equal.
  unfold Doubles.py_max, Doubles.py_min, py_max, py_min.
  cbn [Doubles.flt Doubles.real_arithmetic Doubles.lit_7 Doubles.lit_1].
  repeat case_bool_decide; repeat destruct (Rlt_dec _ _); try lra; done.
Qed.

Lemma real_sort_reverse (scores : list (R * string)) :
  Doubles.sort_reverse Doubles.real_arithmetic scores = sort_reverse scores.
Proof.
  unfold Doubles.sort_reverse, sort_reverse. f_equal.
  apply (merge_sort_agree _ _ (λ _, True)); [|by apply Forall_true].
  intros x y _ _. unfold Doubles.tuple_le, tuple_le, Doubles.tuple_lt, tuple_lt.
  cbn [Doubles.feq Doubles.flt Doubles.real_arithmetic].
  repeat (case_bool_decide || case_decide);
    rewrite ?bool_decide_eq_true; try tauto.
  split; [done | discriminate].
Qed.

Lemma real_suggest_guesses (zipf_frequency : string → string → R)
    (cands all : list string) (alpha : R) (topk : Z) (restrict_guesses : bool) :
  Doubles.suggest_guesses Doubles.real_arithmetic zipf_frequency cands all alpha
    topk restrict_guesses
  = suggest_guesses zipf_frequency cands all alpha topk restrict_guesses.
Proof.
  rewrite double_suggest_guesses_serial, suggest_guesses_serial.
  unfold Doubles.suggest_serial, suggest_serial, Doubles.rank, rank.
  assert (Hscores : ∀ pool,
    Doubles.serial_scores Doubles.real_arithmetic zipf_frequency pool cands alpha
    = serial_scores zipf_frequency pool cands alpha).
  { induction pool as [|w pool IH]; [done|].
    cbn [Doubles.serial_scores serial_scores].
    by rewrite real_hybrid_score, IH. }
  rewrite Hscores.
  destruct (serial_scores _ _ _ _) as [scores|e]; [|done].
  cbn [mbind Res_bind]. by rewrite real_sort_reverse.
Qed.

Lemma real_scores_not_nan (zipf_frequency : string → string → R)
    (pool cands : list string) (alpha : R) :
  Forall is_word pool → Forall is_word cands →
  ∀ w, w ∈ pool →
    ∃ s, Doubles.hybrid_score Doubles.real_arithmetic zipf_frequency w cands alpha
         = Ok s
         ∧ Doubles.not_nan Doubles.real_arithmetic s.
Proof.
  intros Hp Hc w Hw. rewrite Forall_forall in Hp.
  destruct (hybrid_score_total zipf_frequency w cands alpha (Hp w Hw) Hc) as [s Hs].
  exists s. rewrite real_hybrid_score. split; [done|].
  unfold Doubles.not_nan. cbn. by apply bool_decide_eq_true.
Qed.

(** ** Solver Session *)

Section SessionFacts.

Variable top_n_list : string → Z → list string.
Variable zipf_frequency : string → string → R.

Lemma guess_words_Ok (s : WordleSolver) word pat alpha topk restrict_guesses :
  is_word word → solver_inv s →
  ∃ suggested,
    (guess zipf_frequency s word pat alpha topk restrict_guesses).2 = Ok suggested.
Proof.
  intros Hw [Hall Hcands _]. unfold guess. cbn [candidates history all_words].
  rewrite filter_candidates_words by done.
  set (remaining := filter _ (candidates s)).
  assert (Hrem : Forall is_word remaining) by by apply Forall_filter_keep.
  repeat case_bool_decide; cbn [snd]; [by eexists | by eexists |].
  rewrite suggest_guesses_serial. unfold suggest_serial.
  destruct (serial_scores_total zipf_frequency
              (if restrict_guesses then remaining else all_words s)
              remaining alpha) as [scores ->]; [by destruct restrict_guesses | done |].
  by eexists.
Qed.

Lemma run_calls_all_words (cs : list call) :
  ∀ s, all_words (run_calls zipf_frequency s cs) = all_words s.
Proof.
  induction cs as [|c cs IH]; intros s; [done|].
  cbn [run_calls foldl]. fold (run_calls zipf_frequency (run_call zipf_frequency s c) cs).
  rewrite IH. destruct c as [word pat alpha topk restrict_guesses|]; [|done].
  cbn [run_call]. by destruct (guess_state zipf_frequency s word pat alpha topk
                                 restrict_guesses) as (-> & _).
Qed.

(** [reset] brings back the state of construction exactly when the
    past-answer filter removed nothing from the dictionary. *)
Lemma reset_restores_iff n_top filter_past_answers scrape (cs : list call) :
  reset (run_calls zipf_frequency
           (WordleSolver_init top_n_list n_top filter_past_answers scrape) cs)
  = WordleSolver_init top_n_list n_top filter_past_answers scrape
  ↔ build_dictionary top_n_list n_top filter_past_answers scrape
    = build_dictionary top_n_list n_top false scrape.
Proof.
  unfold reset. rewrite run_calls_all_words.
  unfold WordleSolver_init. cbn [all_words]. split.
  - intros [= Heq]. by destruct filter_past_answers.
  - intros Heq. f_equal. by destruct filter_past_answers.
Qed.

(** Without the past-answer filter, or when the scrape failed, it does. *)
Lemma reset_restores_unfiltered n_top filter_past_answers scrape (cs : list call) :
  filter_past_answers = false ∨ scrape = None →
  reset (run_calls zipf_frequency
           (WordleSolver_init top_n_list n_top filter_past_answers scrape) cs)
  = WordleSolver_init top_n_list n_top filter_past_answers scrape.
Proof.
  intros Hcase. apply reset_restores_iff.
  destruct Hcase as [-> | ->]; [done|]. by destruct filter_past_answers.
Qed.

End SessionFacts.

(** ** Entropy Scorer: the bounds over exact reals

    With the floats read as real numbers, the expected entropy H of a guess
    against a non-empty candidate list (of words) is returned and satisfies
    0 <= H <= log2 |C|; H = 0 exactly when all candidates give the same
    feedback pattern against the guess, and H = log2 |C| exactly when no
    two candidates give the same pattern. This is a fact of the idealised
    arithmetic only: the code rounds every quotient, logarithm, product and
    difference to a double, and the rounded sum need not stay below the
    rounded log2 |C| nor meet it. *)
Lemma expected_entropy_bounds (guess : string) (cands : list string) :
  is_word guess → Forall is_word cands → cands ≠ [] →
  ∃ h,
    expected_entropy guess cands = Ok h
    ∧ (0 <= h <= ln (INR (length cands)) / ln 2)%R
    ∧ (h = 0%R ↔
       ∀ w1 w2, w1 ∈ cands → w2 ∈ cands →
                feedback_pattern guess w1 = feedback_pattern guess w2)
    ∧ (h = (ln (INR (length cands)) / ln 2)%R ↔
       NoDup (feedback_pattern guess <$> cands)).
Proof.
  intros Hg Hc Hne. eexists. split; [by apply expected_entropy_words|].
  set (ps := feedback_reference guess <$> cands).
  set (counts := (tally ps []).*2).
  set (n := Z.of_nat (length cands)).
  assert (Hn : 1 ≤ n) by (destruct cands; [done | subst n; cbn [length]; lia]).
  assert (Hlen : Z.of_nat (length ps) = n) by (subst ps n; by rewrite length_fmap).
  assert (Hpos : Forall (λ c, 1 ≤ c) counts) by (apply tally_positive; constructor).
  assert (Hsum : sumZ counts = n).
  { subst counts. rewrite tally_sumZ. cbn. lia. }
  assert (Hrange : Forall (λ c, 1 ≤ c ≤ n) counts).
  { rewrite Forall_forall in Hpos |- *. intros c Hin. split; [by apply Hpos|].
    rewrite <- Hsum. apply sumZ_bound; [by apply Forall_forall | done]. }
  destruct (entropy_sum_nonpos counts n Hrange) as [Hle Hzero].
  pose proof (entropy_sum_split counts n Hn Hpos) as Hsplit.
  destruct (weighted_logs_nonneg counts Hpos) as [Hw Hwzero].
  pose proof ln2_pos as Hln2.
  assert (Hn' : (0 < IZR n)%R) by (apply IZR_lt; lia).
  rewrite Hsum in Hsplit.
  replace (IZR n / IZR n)%R with 1%R in Hsplit by (field; lra).
  rewrite INR_IZR_INZ. fold n.
  assert (Hden : (0 < / (IZR n * ln 2))%R).
  { apply Rinv_0_lt_compat, Rmult_lt_0_compat; lra. }
  assert (Hquot : (0 <= weighted_logs counts / (IZR n * ln 2))%R).
  { unfold Rdiv. apply Rmult_le_pos; lra. }
  split; [lra|]. split.
  - trans (entropy_sum counts n = 0%R); [split; lra|].
    rewrite Hzero. subst counts. rewrite <- Hlen, tally_single_partition.
    split.
    + intros Hsame w1 w2 Hw1 Hw2.
      rewrite Forall_forall in Hc.
      rewrite !feedback_pattern_reference by auto. f_equal.
      apply Hsame; subst ps; apply list_elem_of_fmap; eauto.
    + intros Hsame p q (w1 & -> & Hw1)%list_elem_of_fmap
        (w2 & -> & Hw2)%list_elem_of_fmap.
      rewrite Forall_forall in Hc. specialize (Hsame w1 w2 Hw1 Hw2).
      rewrite !feedback_pattern_reference in Hsame by auto. congruence.
  - trans (weighted_logs counts = 0%R).
    + split; [|intros Hz; rewrite Hz in Hsplit; lra].
      intros Hh.
      assert (Hq : (weighted_logs counts / (IZR n * ln 2) = 0)%R) by lra.
      unfold Rdiv in Hq. apply Rmult_integral in Hq as [Hq|Hq]; lra.
    + rewrite Hwzero. subst counts. rewrite tally_all_distinct.
      rewrite patterns_words by done. fold ps.
      symmetry. apply (NoDup_fmap Ok).
Qed.

Lemma expected_entropy_bounds_witness :
  is_word "crane" ∧ Forall is_word ["trace"; "slate"; "stale"]
  ∧ ["trace"; "slate"; "stale"] ≠ []
  ∧ ∃ h,
      expected_entropy "crane" ["trace"; "slate"; "stale"] = Ok h
      ∧ (0 <= h <= ln (INR (length ["trace"; "slate"; "stale"])) / ln 2)%R
      ∧ (h = 0%R ↔
         ∀ w1 w2, w1 ∈ ["trace"; "slate"; "stale"] →
                  w2 ∈ ["trace"; "slate"; "stale"] →
                  feedback_pattern "crane" w1 = feedback_pattern "crane" w2)
      ∧ (h = (ln (INR (length ["trace"; "slate"; "stale"])) / ln 2)%R ↔
         NoDup (feedback_pattern "crane" <$> ["trace"; "slate"; "stale"])).
Proof.
  split; [reflexivity|]. split; [repeat constructor|]. split; [discriminate|].
  apply (expected_entropy_bounds "crane" ["trace"; "slate"; "stale"]).
  - reflexivity.
  - repeat constructor.
  - discriminate.
Defined.

(** * The claims *)

(** C1. [reset()] does not bring back the CandidateSet of construction when
    the solver was built with [filter_past_answers=True] and the scrape
    removed a word: it installs the unfiltered dictionary. On the sample
    corpus with past answer crane the solver starts with four candidates,
    and after any sequence of calls [reset()] leaves the five words of the
    full dictionary, crane included, so the state of construction is not
    restored. The history is emptied. *)
Theorem reset_forgets_past_answer_filter (calls : list call) :
  candidates sample_filtered_solver = ["plate"; "slate"; "stale"; "trace"]
  ∧ candidates (reset (run_calls sample_zipf sample_filtered_solver calls))
    = ["crane"; "plate"; "slate"; "stale"; "trace"]
  ∧ history (reset (run_calls sample_zipf sample_filtered_solver calls)) = []
  ∧ reset (run_calls sample_zipf sample_filtered_solver calls)
    ≠ sample_filtered_solver.
Proof.
  assert (H1 : candidates sample_filtered_solver
               = ["plate"; "slate"; "stale"; "trace"]) by (vm_compute; reflexivity).
  assert (H2 : candidates (reset (run_calls sample_zipf sample_filtered_solver calls))
               = ["crane"; "plate"; "slate"; "stale"; "trace"]).
  { cbn [reset candidates]. rewrite run_calls_all_words.
    vm_compute. reflexivity. }
  split; [exact H1|]. split; [exact H2|]. split; [reflexivity|].
  intros Heq. apply (f_equal candidates) in Heq. rewrite H1, H2 in Heq.
  discriminate.
Qed.

(** C2. The serial and the parallel scoring path of [suggest_guesses] give
    the same ranked list (or raise the same exception) for every pool,
    candidate list, alpha and topk, so the result does not depend on which
    branch the pool size selects; and because the scores are sorted by the
    total order on (score, word) before truncation, ranking the scores in
    any other order of arrival gives that same list. *)
Theorem serial_parallel_same_ranking (zipf_frequency : string → string → R)
    (pool cands : list string) (alpha : R) (topk : Z) :
  suggest_serial zipf_frequency pool cands alpha topk
  = suggest_parallel zipf_frequency pool cands alpha topk
  ∧ (∀ all restrict_guesses,
       pool = (if restrict_guesses : bool then cands else all) →
       suggest_guesses zipf_frequency cands all alpha topk restrict_guesses
       = suggest_serial zipf_frequency pool cands alpha topk)
  ∧ (∀ scores arrived,
       parallel_scores zipf_frequency pool cands alpha = Ok scores →
       arrived ≡ₚ scores →
       suggest_serial zipf_frequency pool cands alpha topk
       = Ok (rank arrived topk)).
Proof.
  split; [|split].
  - unfold suggest_serial, suggest_parallel. by rewrite serial_parallel_scores.
  - intros all restrict_guesses ->. apply suggest_guesses_serial.
  - intros scores arrived Hscores Hperm. unfold suggest_serial.
    rewrite serial_parallel_scores, Hscores. cbn [mbind Res_bind].
    unfold rank. by rewrite (sort_reverse_order_independent arrived scores).
Qed.

Lemma serial_parallel_same_ranking_witness :
  let score (w : string) :=
    (7 / 10 * 0
     + (1 - 7 / 10) * ((py_max (py_min (sample_zipf w "en") 7) 1 - 1) / 6))%R in
  parallel_scores sample_zipf ["crane"; "trace"] [] (7 / 10)
  = Ok [(score "crane", "crane"); (score "trace", "trace")]
  ∧ [(score "trace", "trace"); (score "crane", "crane")]
    ≡ₚ [(score "crane", "crane"); (score "trace", "trace")]
  ∧ suggest_serial sample_zipf ["crane"; "trace"] [] (7 / 10) 5
    = Ok (rank [(score "trace", "trace"); (score "crane", "crane")] 5).
Proof.
  intros score.
  assert (Hscores :
    parallel_scores sample_zipf ["crane"; "trace"] [] (7 / 10)
    = Ok [(score "crane", "crane"); (score "trace", "trace")]) by reflexivity.
  assert (Hperm :
    [(score "trace", "trace"); (score "crane", "crane")]
    ≡ₚ [(score "crane", "crane"); (score "trace", "trace")]) by apply perm_swap.
  split; [exact Hscores|]. split; [exact Hperm|].
  exact (proj2 (proj2 (serial_parallel_same_ranking sample_zipf
                         ["crane"; "trace"] [] (7 / 10) 5))
           _ _ Hscores Hperm).
Defined.

(** C3. On five-letter words [feedback_pattern] computes the two-pass
    reference: exact matches are marked CORRECT and consume their target
    letter; then, left to right, an unmarked position is PRESENT when its
    letter is still available (one occurrence is consumed) and ABSENT
    otherwise. In particular crane against trace gives (1, 2, 2, 0, 2). *)
Theorem feedback_pattern_two_pass :
  (∀ guess target, is_word guess → is_word target →
     feedback_pattern guess target = Ok (feedback_reference guess target))
  ∧ feedback_pattern "crane" "trace"
    = Ok [PRESENT; CORRECT; CORRECT; ABSENT; CORRECT]
  ∧ [PRESENT; CORRECT; CORRECT; ABSENT; CORRECT] = [1; 2; 2; 0; 2].
Proof.
  split; [|split; reflexivity].
  intros guess target. apply feedback_pattern_reference.
Qed.

Lemma feedback_pattern_two_pass_witness :
  is_word "speed" ∧ is_word "abide"
  ∧ feedback_pattern "speed" "abide" = Ok (feedback_reference "speed" "abide").
Proof.
  split; [reflexivity|]. split; [reflexivity|].
  apply (proj1 feedback_pattern_two_pass); reflexivity.
Defined.

(** C5. On a session built by the constructor and driven by calls on
    words, [guess(word, pattern)] with a word does not raise and leaves a
    candidate list that is a sub-list of the previous one, so its length
    does not grow, over one guess as over any further sequence of
    guesses; the length drops strictly when some current candidate's
    feedback against the word differs from the pattern; and afterwards
    every remaining candidate reproduces the pattern of every record of
    the history. *)
Theorem guess_narrows_candidates
    (top_n_list : string → Z → list string) (zipf_frequency : string → string → R)
    (n_top : Z) (filter_past_answers : bool) (scrape : option (list string))
    (calls : list call) (word : string) (pat : pattern) (alpha : R) (topk : Z)
    (restrict_guesses : bool) :
  Forall well_formed_call calls → is_word word →
  let s := run_calls zipf_frequency
             (WordleSolver_init top_n_list n_top filter_past_answers scrape)
             calls in
  let r := guess zipf_frequency s word pat alpha topk restrict_guesses in
  (∃ suggested, r.2 = Ok suggested)
  ∧ candidates r.1 `sublist_of` candidates s
  ∧ (length (candidates r.1) ≤ length (candidates s))%nat
  ∧ ((∃ w, w ∈ candidates s ∧ feedback_pattern word w ≠ Ok pat) →
     (length (candidates r.1) < length (candidates s))%nat)
  ∧ (∀ w g p, w ∈ candidates r.1 → (g, p) ∈ history r.1 →
              feedback_pattern g w = Ok p)
  ∧ (∀ more, Forall is_guess_call more →
       (length (candidates (run_calls zipf_frequency r.1 more))
        ≤ length (candidates r.1))%nat).
Proof.
  intros Hcalls Hword s r.
  assert (Hs : solver_inv s).
  { apply run_calls_inv; [apply WordleSolver_init_inv | done]. }
  pose proof (guess_inv zipf_frequency s word pat alpha topk restrict_guesses
                Hword Hs) as Hr.
  pose proof (guess_sublist zipf_frequency s word pat alpha topk restrict_guesses)
    as Hsub.
  fold r in Hr, Hsub.
  split; [by apply guess_words_Ok|]. split; [done|].
  split; [by apply sublist_length|]. split; [|split].
  - intros (w & Hw & Hne). subst r.
    rewrite guess_state_words; [|done|by destruct Hs].
    by eapply length_filter_lt.
  - by destruct Hr.
  - intros more Hmore. by apply sublist_length, run_guesses_sublist.
Qed.

Lemma guess_narrows_candidates_witness :
  let calls := [CallGuess "crane" [0; 0; 2; 0; 2] (7 / 10) 5 false] in
  let s := run_calls sample_zipf
             (WordleSolver_init sample_corpus 100000 true (Some ["trace"]))
             calls in
  let r := guess sample_zipf s "slate" [2; 1; 2; 1; 2] (7 / 10) 5 false in
  Forall well_formed_call calls
  ∧ is_word "slate"
  ∧ candidates s = ["plate"; "slate"; "stale"]
  ∧ feedback_pattern "slate" "plate" = Ok [0; 2; 2; 2; 2]
  ∧ candidates r.1 = ["stale"]
  ∧ (length (candidates r.1) < length (candidates s))%nat
  ∧ (∃ suggested, r.2 = Ok suggested)
  ∧ candidates r.1 `sublist_of` candidates s
  ∧ (length (candidates r.1) ≤ length (candidates s))%nat
  ∧ ((∃ w, w ∈ candidates s ∧ feedback_pattern "slate" w ≠ Ok [2; 1; 2; 1; 2]) →
     (length (candidates r.1) < length (candidates s))%nat)
  ∧ (∀ w g p, w ∈ candidates r.1 → (g, p) ∈ history r.1 →
              feedback_pattern g w = Ok p)
  ∧ (∀ more, Forall is_guess_call more →
       (length (candidates (run_calls sample_zipf r.1 more))
        ≤ length (candidates r.1))%nat).
Proof.
  intros calls s r.
  assert (Hcalls : Forall well_formed_call calls) by repeat constructor.
  assert (Hs : candidates s = ["plate"; "slate"; "stale"]).
  { subst s calls. cbn [run_calls foldl run_call].
    rewrite guess_state_words;
      [reflexivity | reflexivity | apply WordleSolver_init_inv]. }
  assert (Hr : candidates r.1 = ["stale"]).
  { subst r. rewrite guess_state_words, Hs;
      [reflexivity | reflexivity | rewrite Hs; by repeat constructor]. }
  pose proof (guess_narrows_candidates sample_corpus sample_zipf 100000 true
                (Some ["trace"]) calls "slate" [2; 1; 2; 1; 2] (7 / 10) 5 false
                Hcalls eq_refl) as Hclaim.
  change (let r' := r in
          (∃ suggested, r'.2 = Ok suggested)
          ∧ candidates r'.1 `sublist_of` candidates s
          ∧ (length (candidates r'.1) ≤ length (candidates s))%nat
          ∧ ((∃ w, w ∈ candidates s
                   ∧ feedback_pattern "slate" w ≠ Ok [2; 1; 2; 1; 2]) →
             (length (candidates r'.1) < length (candidates s))%nat)
          ∧ (∀ w g p, w ∈ candidates r'.1 → (g, p) ∈ history r'.1 →
                      feedback_pattern g w = Ok p)
          ∧ (∀ more, Forall is_guess_call more →
               (length (candidates (run_calls sample_zipf r'.1 more))
                ≤ length (candidates r'.1))%nat)) in Hclaim.
  destruct Hclaim as (Hok & Hsub & Hle & Hlt & Hcons & Hmore).
  split; [exact Hcalls|]. split; [reflexivity|]. split; [exact Hs|].
  split; [reflexivity|]. split; [exact Hr|].
  split; [|exact (conj Hok (conj Hsub (conj Hle (conj Hlt (conj Hcons Hmore)))))].
  apply Hlt. exists "plate". split; [|discriminate].
  rewrite Hs. apply list_elem_of_here.
Defined.

(** C6. For a duplicate-free pool and k >= 1, [suggest_guesses] returns at
    most k words, and every word of the list stands before a later one
    only when its (hybrid score, word) pair is strictly greater: a higher
    score first, and on equal scores the lexicographically greater word
    first. The scores are the doubles the code computes, whatever the float
    arithmetic rounds them to, compared by the interpreter's [<] and [==];
    every pool word is scored, and no score is NaN. *)
Theorem suggest_guesses_top_k (A : Doubles.arithmetic)
    (zipf_frequency : string → string → Doubles.double A)
    (cands all : list string) (alpha : Doubles.double A) (topk : Z)
    (restrict_guesses : bool) :
  Doubles.ordered A →
  NoDup (if restrict_guesses then cands else all) →
  1 ≤ topk →
  (∀ w, w ∈ (if restrict_guesses then cands else all) →
        ∃ s, Doubles.hybrid_score A zipf_frequency w cands alpha = Ok s
             ∧ Doubles.not_nan A s) →
  ∃ ws,
    Doubles.suggest_guesses A zipf_frequency cands all alpha topk restrict_guesses
    = Ok ws
    ∧ Z.of_nat (length ws) ≤ topk
    ∧ StronglySorted
        (λ w1 w2, ∃ s1 s2,
           Doubles.hybrid_score A zipf_frequency w1 cands alpha = Ok s1
           ∧ Doubles.hybrid_score A zipf_frequency w2 cands alpha = Ok s2
           ∧ (Doubles.flt A s2 s1 = true
              ∨ (Doubles.feq A s1 s2 = true ∧ str_lt w2 w1)))
        ws.
Proof.
  intros Hord Hnd Hk Hscore. rewrite double_suggest_guesses_serial.
  set (pool := if restrict_guesses then cands else all) in *.
  destruct (double_ranking A Hord zipf_frequency pool cands alpha Hnd Hscore)
    as (scores & Hs & Hwords & Hsorted).
  unfold Doubles.suggest_serial. rewrite Hs. cbn [mbind Res_bind].
  eexists. split; [done|]. unfold Doubles.rank. split.
  - rewrite length_fmap. apply slice_to_length. lia.
  - apply (StronglySorted_slice_to _ topk) in Hsorted.
    eapply StronglySorted_fmap; [|exact Hsorted].
    intros [s1 w1] [s2 w2] (Hgt & [H1 N1] & [H2 N2]). cbn [fst snd] in *.
    exists s1, s2. split; [done|]. split; [done|].
    apply double_tuple_lt_lex in Hgt; [|done..]. cbn [fst snd] in Hgt.
    destruct Hgt as [? | [Heq ?]]; [by left | right].
    split; [by apply (Doubles.feq_sym A Hord) | done].
Qed.

Lemma suggest_guesses_top_k_witness :
  Doubles.ordered Doubles.real_arithmetic
  ∧ NoDup ["crane"; "trace"; "slate"]
  ∧ 1 ≤ 2
  ∧ (∀ w, w ∈ ["crane"; "trace"; "slate"] →
          ∃ s, Doubles.hybrid_score Doubles.real_arithmetic sample_zipf w
                 ["crane"; "trace"; "slate"] (7 / 10)%R = Ok s
               ∧ Doubles.not_nan Doubles.real_arithmetic s)
  ∧ ∃ ws,
      Doubles.suggest_guesses Doubles.real_arithmetic sample_zipf
        ["crane"; "trace"; "slate"] ["stale"] (7 / 10)%R 2 true = Ok ws
      ∧ Z.of_nat (length ws) ≤ 2
      ∧ StronglySorted
          (λ w1 w2, ∃ s1 s2,
             Doubles.hybrid_score Doubles.real_arithmetic sample_zipf w1
               ["crane"; "trace"; "slate"] (7 / 10)%R = Ok s1
             ∧ Doubles.hybrid_score Doubles.real_arithmetic sample_zipf w2
                 ["crane"; "trace"; "slate"] (7 / 10)%R = Ok s2
             ∧ (Doubles.flt Doubles.real_arithmetic s2 s1 = true
                ∨ (Doubles.feq Doubles.real_arithmetic s1 s2 = true
                   ∧ str_lt w2 w1)))
          ws.
Proof.
  assert (Hnd : NoDup ["crane"; "trace"; "slate"]) by (by apply (bool_decide_unpack _)).
  assert (Hw : Forall is_word ["crane"; "trace"; "slate"]) by repeat constructor.
  pose proof (real_scores_not_nan sample_zipf ["crane"; "trace"; "slate"]
                ["crane"; "trace"; "slate"] (7 / 10)%R Hw Hw) as Hscore.
  split; [exact real_arithmetic_ordered|]. split; [exact Hnd|]. split; [lia|].
  split; [exact Hscore|].
  apply (suggest_guesses_top_k Doubles.real_arithmetic sample_zipf
           ["crane"; "trace"; "slate"] ["stale"] (7 / 10)%R 2 true
           real_arithmetic_ordered Hnd);
    [lia | exact Hscore].
Defined.

(** C7. When the filter of a guess leaves no candidate, nothing is raised:
    [guess] returns an empty suggestion list and leaves the solver without
    candidates; the endpoint answers with no suggestion, zero candidates,
    [is_solved] false and the message "No candidates remain - check your
    pattern". The state is terminal for the round (every further guess
    again returns no suggestion and leaves no candidate), and [reset]
    gives a session with the full dictionary and an empty history. *)
Theorem exhausted_candidates_handled (zipf_frequency : string → string → R)
    (sessions : gmap string WordleSolver) (request : GuessRequest)
    (solver : WordleSolver) :
  let word := lower (req_word request) in
  let pat := req_pattern request in
  sessions !! req_session_id request = Some solver →
  isalpha word = true → String.length word = 5%nat →
  forallb (λ p, bool_decide (p ∈ [0; 1; 2])) pat = true →
  filter_candidates (candidates solver) word pat = Ok [] →
  let exhausted := {| all_words := all_words solver;
                      candidates := [];
                      history := history solver ++ [(word, pat)] |} in
  guess zipf_frequency solver word pat (req_alpha request) (req_topk request)
    (req_restrict_guesses request) = (exhausted, Ok [])
  ∧ submit_guess zipf_frequency sessions request
    = (<[req_session_id request := exhausted]> sessions,
       inr {| suggestions := [];
              candidates_remaining := 0;
              is_solved := false;
              message := Some "No candidates remain - check your pattern" |})
  ∧ (∀ word' pat' alpha' topk' restrict',
       guess zipf_frequency exhausted word' pat' alpha' topk' restrict'
       = ({| all_words := all_words solver;
             candidates := [];
             history := history exhausted ++ [(word', pat')] |}, Ok []))
  ∧ reset exhausted = {| all_words := all_words solver;
                         candidates := all_words solver;
                         history := [] |}.
Proof.
  intros word pat Hsession Halpha Hlen Hpat Hfilter exhausted.
  assert (Hguess :
    guess zipf_frequency solver word pat (req_alpha request) (req_topk request)
      (req_restrict_guesses request) = (exhausted, Ok [])).
  { unfold guess. cbn [candidates history all_words]. by rewrite Hfilter. }
  split; [exact Hguess|]. split; [|split; [|done]].
  - unfold submit_guess. rewrite Hsession. fold word pat.
    rewrite Halpha, Hpat, (bool_decide_true _ Hlen). cbn [negb orb].
    by rewrite Hguess.
  - intros word' pat' alpha' topk' restrict'. reflexivity.
Qed.

Lemma exhausted_candidates_handled_witness :
  let request := {| req_session_id := "s1"; req_word := "Crane";
                    req_pattern := [0; 0; 0; 0; 0]; req_alpha := (7 / 10)%R;
                    req_topk := 5; req_restrict_guesses := false |} in
  let sessions : gmap string WordleSolver := {["s1" := sample_solver]} in
  let exhausted := {| all_words := all_words sample_solver;
                      candidates := [];
                      history := [("crane", [0; 0; 0; 0; 0])] |} in
  filter_candidates (candidates sample_solver) "crane" [0; 0; 0; 0; 0] = Ok []
  ∧ submit_guess sample_zipf sessions request
    = (<["s1" := exhausted]> sessions,
       inr {| suggestions := [];
              candidates_remaining := 0;
              is_solved := false;
              message := Some "No candidates remain - check your pattern" |})
  ∧ candidates (reset exhausted)
    = ["crane"; "plate"; "slate"; "stale"; "trace"].
Proof.
  intros request sessions exhausted.
  assert (Hfilter :
    filter_candidates (candidates sample_solver) "crane" [0; 0; 0; 0; 0] = Ok [])
    by (vm_compute; reflexivity).
  split; [exact Hfilter|].
  pose proof (exhausted_candidates_handled sample_zipf sessions request
                sample_solver eq_refl eq_refl eq_refl eq_refl Hfilter)
    as (_ & Hsubmit & _ & Hreset).
  split; [exact Hsubmit|].
  change (history sample_solver ++ [(lower (req_word request), req_pattern request)])
    with [("crane", [0; 0; 0; 0; 0])] in Hreset.
  fold exhausted in Hreset. rewrite Hreset. vm_compute. reflexivity.
Defined.

(** C8. [hybrid_score] is alpha times the entropy plus (1 - alpha) times the
    frequency term, the frequency term being the external signal clamped
    to [1, 7] and rescaled linearly to [0, 1]; a signal of at most 1.0
    (the value reported for an unknown word included) makes the term
    exactly 0, and the score is then alpha times the entropy. Nothing is
    raised on words. *)
Theorem hybrid_score_formula (zipf_frequency : string → string → R)
    (guess : string) (cands : list string) (alpha : R) :
  is_word guess → Forall is_word cands →
  let freq := zipf_frequency guess "en" in
  ∃ ent,
    expected_entropy guess cands = Ok ent
    ∧ hybrid_score zipf_frequency guess cands alpha
      = Ok (alpha * ent + (1 - alpha) * freq_norm freq)%R
    ∧ (0 <= freq_norm freq <= 1)%R
    ∧ ((freq <= 1)%R →
       freq_norm freq = 0%R
       ∧ hybrid_score zipf_frequency guess cands alpha = Ok (alpha * ent)%R).
Proof.
  intros Hg Hc freq.
  destruct (expected_entropy_total guess cands Hg Hc) as [ent Hent].
  exists ent. pose proof (hybrid_score_Ok zipf_frequency guess cands alpha ent Hent)
    as Hscore.
  split; [done|]. split; [done|]. split; [apply freq_norm_range|].
  intros Hlow. split; [by apply freq_norm_low|].
  rewrite Hscore. fold freq. rewrite freq_norm_low by done. f_equal. lra.
Qed.

Lemma hybrid_score_formula_witness :
  is_word "crane" ∧ Forall is_word ["trace"; "slate"]
  ∧ ∃ ent,
      expected_entropy "crane" ["trace"; "slate"] = Ok ent
      ∧ hybrid_score (λ _ _, 0%R) "crane" ["trace"; "slate"] (7 / 10)
        = Ok (7 / 10 * ent + (1 - 7 / 10) * freq_norm 0)%R
      ∧ (0 <= freq_norm 0 <= 1)%R
      ∧ ((0 <= 1)%R →
         freq_norm 0 = 0%R
         ∧ hybrid_score (λ _ _, 0%R) "crane" ["trace"; "slate"] (7 / 10)
           = Ok (7 / 10 * ent)%R).
Proof.
  split; [reflexivity|]. split; [repeat constructor|].
  apply (hybrid_score_formula (λ _ _, 0%R) "crane" ["trace"; "slate"] (7 / 10)).
  - reflexivity.
  - repeat constructor.
Defined.

(** C9. Filtering is idempotent: filtering the result of
    [filter_candidates(C, g, p)] again by the same guess and pattern gives
    the same list, and when the first filtering raises, so does the nested
    call. *)
Theorem filter_candidates_idempotent (cands : list string) (guess : string)
    (pat : pattern) :
  (filter_candidates cands guess pat ≫= λ kept, filter_candidates kept guess pat)
  = filter_candidates cands guess pat.
Proof. apply filterM_idem. Qed.

(** C10. On an empty candidate list [expected_entropy] returns 0.0 for every
    guess: no partition is realized, so neither the division by
    [total = 0] nor [math.log2] is evaluated, and nothing is raised. *)
Theorem expected_entropy_empty (guess : string) :
  count_partitions guess [] [] = Ok []
  ∧ true_div 1 (Z.of_nat (length (@nil string))) = Raise ZeroDivisionError
  ∧ expected_entropy guess [] = Ok 0%R.
Proof. repeat split. Qed.

(** * Further properties of the code *)

(** ** Pattern Codec: domain and shape *)

Lemma greens_body_Ok target i ch st st' :
  greens_body target i ch st = Ok st' →
  length st'.1 = length st.1 ∧ (Forall is_mark st.1 → Forall is_mark st'.1).
Proof.
  destruct st as [pat tc]. unfold greens_body.
  destruct (target !! i) as [t|]; [|done].
  repeat case_bool_decide; intros [= <-]; cbn [fst]; try done.
  split; [by rewrite length_insert|]. intros Hm.
  apply Forall_insert; [done|]. right; right; done.
Qed.

Lemma yellows_body_Ok i ch st st' :
  yellows_body i ch st = Ok st' →
  length st'.1 = length st.1 ∧ (Forall is_mark st.1 → Forall is_mark st'.1).
Proof.
  destruct st as [pat tc]. unfold yellows_body.
  destruct (pat !! i) as [v|]; [|done].
  destruct (_ && _); intros [= <-]; cbn [fst]; [|done].
  split; [by rewrite length_insert|]. intros Hm.
  apply Forall_insert; [done|]. right; left; done.
Qed.

Lemma greens_body_Raise target i ch st e :
  greens_body target i ch st = Raise e → e = IndexError.
Proof.
  destruct st as [pat tc]. unfold greens_body.
  destruct (target !! i); repeat case_bool_decide; congruence.
Qed.

Lemma yellows_body_Raise i ch st e :
  yellows_body i ch st = Raise e → e = IndexError.
Proof.
  destruct st as [pat tc]. unfold yellows_body.
  destruct (pat !! i); [destruct (_ && _)|]; congruence.
Qed.

Lemma greens_loop_Ok target (guess : list ascii) :
  ∀ i st st', for_enumerate (greens_body target) i guess st = Ok st' →
    length st'.1 = length st.1 ∧ (Forall is_mark st.1 → Forall is_mark st'.1).
Proof.
  induction guess as [|g guess IH]; intros i st st'; cbn [for_enumerate].
  - by intros [= <-].
  - intros (st1 & H1 & H2)%bind_Ok.
    apply greens_body_Ok in H1 as [Hl1 Hm1]. apply IH in H2 as [Hl2 Hm2].
    split; [congruence | auto].
Qed.

Lemma yellows_loop_Ok (guess : list ascii) :
  ∀ i st st', for_enumerate yellows_body i guess st = Ok st' →
    length st'.1 = length st.1 ∧ (Forall is_mark st.1 → Forall is_mark st'.1).
Proof.
  induction guess as [|g guess IH]; intros i st st'; cbn [for_enumerate].
  - by intros [= <-].
  - intros (st1 & H1 & H2)%bind_Ok.
    apply yellows_body_Ok in H1 as [Hl1 Hm1]. apply IH in H2 as [Hl2 Hm2].
    split; [congruence | auto].
Qed.

Lemma greens_loop_total target (guess : list ascii) :
  ∀ i st, (i + length guess ≤ length st.1)%nat →
          (i + length guess ≤ length target)%nat →
          ∃ st', for_enumerate (greens_body target) i guess st = Ok st'.
Proof.
  induction guess as [|g guess IH]; intros i [pat tc] Hp Ht; [by eexists|].
  cbn [for_enumerate length fst] in *.
  destruct (lookup_lt_is_Some_2 target i) as [t Hlook]; [lia|].
  assert (∃ st1, greens_body target i g (pat, tc) = Ok st1) as [st1 H1].
  { unfold greens_body. rewrite Hlook. case_bool_decide; [|by eexists].
    rewrite bool_decide_true by lia. by eexists. }
  rewrite H1. cbn [mbind Res_bind]. apply IH; [|lia].
  apply greens_body_Ok in H1 as [-> _]. cbn [fst]. lia.
Qed.

Lemma yellows_loop_total (guess : list ascii) :
  ∀ i st, (i + length guess ≤ length st.1)%nat →
          ∃ st', for_enumerate yellows_body i guess st = Ok st'.
Proof.
  induction guess as [|g guess IH]; intros i [pat tc] Hp; [by eexists|].
  cbn [for_enumerate length fst] in *.
  destruct (lookup_lt_is_Some_2 pat i) as [v Hlook]; [lia|].
  assert (∃ st1, yellows_body i g (pat, tc) = Ok st1) as [st1 H1].
  { unfold yellows_body. rewrite Hlook. destruct (_ && _); by eexists. }
  rewrite H1. cbn [mbind Res_bind]. apply IH.
  apply yellows_body_Ok in H1 as [-> _]. cbn [fst]. lia.
Qed.

Lemma greens_loop_short_target target (guess : list ascii) :
  ∀ i st, (i ≤ length target)%nat → (length target < i + length guess)%nat →
          for_enumerate (greens_body target) i guess st = Raise IndexError.
Proof.
  induction guess as [|g guess IH]; intros i st Hi Hlen;
    cbn [for_enumerate length] in *; [lia|].
  destruct (greens_body target i g st) as [st1|e] eqn:H1; cbn [mbind Res_bind].
  - apply IH; [|lia].
    destruct (decide (i = length target)) as [->|]; [|lia].
    destruct st as [pat tc]. unfold greens_body in H1.
    by rewrite lookup_ge_None_2 in H1.
  - by apply greens_body_Raise in H1 as ->.
Qed.

Lemma yellows_loop_long_guess (guess : list ascii) :
  ∀ i st, (i ≤ length st.1)%nat → (length st.1 < i + length guess)%nat →
          for_enumerate yellows_body i guess st = Raise IndexError.
Proof.
  induction guess as [|g guess IH]; intros i st Hi Hlen;
    cbn [for_enumerate length] in *; [lia|].
  destruct (yellows_body i g st) as [st1|e] eqn:H1; cbn [mbind Res_bind].
  - pose proof (yellows_body_Ok _ _ _ _ H1) as [Hl _].
    apply IH; rewrite Hl; [|lia].
    destruct (decide (i = length st.1)) as [Heq|]; [|lia].
    destruct st as [pat tc]. unfold yellows_body in H1. cbn [fst] in Heq.
    by rewrite lookup_ge_None_2 in H1 by lia.
  - by apply yellows_body_Raise in H1 as ->.
Qed.

Lemma greens_loop_Raise target (guess : list ascii) :
  ∀ i st e, for_enumerate (greens_body target) i guess st = Raise e →
            e = IndexError.
Proof.
  induction guess as [|g guess IH]; intros i st e; cbn [for_enumerate]; [done|].
  destruct (greens_body target i g st) as [st1|e1] eqn:H1; cbn [mbind Res_bind].
  - apply IH.
  - intros [= <-]. by apply greens_body_Raise in H1.
Qed.

Lemma feedback_pattern_fits (guess target : string) :
  let fits := (String.length guess ≤ 5)%nat
              ∧ (String.length guess ≤ String.length target)%nat in
  (fits ↔ ∃ p, feedback_pattern guess target = Ok p)
  ∧ (¬ fits ↔ feedback_pattern guess target = Raise IndexError)
  ∧ (∀ p, feedback_pattern guess target = Ok p →
          length p = 5%nat ∧ Forall is_mark p).
Proof.
  intros fits. subst fits. rewrite <- !chars_length. unfold feedback_pattern.
  set (st0 := (replicate 5 0, Some <$> chars target)).
  assert (Hshape : ∀ p,
    (for_enumerate (greens_body (chars target)) 0 (chars guess) st0
     ≫= λ st1, for_enumerate yellows_body 0 (chars guess) st1
     ≫= λ st2, Ok st2.1) = Ok p →
    length p = 5%nat ∧ Forall is_mark p).
  { intros p (st1 & H1 & (st2 & H2 & [= <-])%bind_Ok)%bind_Ok.
    apply greens_loop_Ok in H1 as [Hl1 Hm1]. apply yellows_loop_Ok in H2 as [Hl2 Hm2].
    split; [by rewrite Hl2, Hl1|]. apply Hm2, Hm1.
    subst st0. cbn. repeat constructor; by left. }
  assert (Hfit : (length (chars guess) ≤ 5)%nat
                 ∧ (length (chars guess) ≤ length (chars target))%nat →
    ∃ p, (for_enumerate (greens_body (chars target)) 0 (chars guess) st0
          ≫= λ st1, for_enumerate yellows_body 0 (chars guess) st1
          ≫= λ st2, Ok st2.1) = Ok p).
  { intros [H5 Ht].
    destruct (greens_loop_total (chars target) (chars guess) 0 st0)
      as [st1 H1]; [subst st0; cbn; lia | lia |].
    rewrite H1. cbn [mbind Res_bind].
    destruct (yellows_loop_total (chars guess) 0 st1) as [st2 H2].
    { apply greens_loop_Ok in H1 as [-> _]. subst st0. cbn. lia. }
    rewrite H2. by eexists. }
  assert (Hunfit : ¬ ((length (chars guess) ≤ 5)%nat
                      ∧ (length (chars guess) ≤ length (chars target))%nat) →
    (for_enumerate (greens_body (chars target)) 0 (chars guess) st0
     ≫= λ st1, for_enumerate yellows_body 0 (chars guess) st1
     ≫= λ st2, Ok st2.1) = Raise IndexError).
  { intros Hn.
    destruct (for_enumerate (greens_body (chars target)) 0 (chars guess) st0)
      as [st1|e] eqn:H1; cbn [mbind Res_bind].
    - destruct (decide (length (chars guess) ≤ length (chars target))%nat)
        as [Ht|Ht].
      + rewrite yellows_loop_long_guess; [done|lia|].
        apply greens_loop_Ok in H1 as [-> _]. subst st0. cbn. lia.
      + rewrite greens_loop_short_target in H1; [done|lia|lia].
    - by apply greens_loop_Raise in H1 as ->. }
  split; [|split; [|exact Hshape]].
  - split; [exact Hfit|]. intros [p Hp].
    destruct (decide ((length (chars guess) ≤ 5)%nat
                      ∧ (length (chars guess) ≤ length (chars target))%nat))
      as [|Hn]; [done|].
    rewrite (Hunfit Hn) in Hp. discriminate.
  - split; [exact Hunfit|]. intros Hr [p Hp]%Hfit. congruence.
Qed.

(** X1. [feedback_pattern(guess, target)] returns exactly when the guess
    has at most five characters and is not longer than the target; the
    result then has five entries, each of 0, 1, 2. In every other case it
    raises IndexError. *)
Theorem feedback_pattern_domain (guess target : string) :
  let fits := (String.length guess ≤ 5)%nat
              ∧ (String.length guess ≤ String.length target)%nat in
  (fits ↔ ∃ p, feedback_pattern guess target = Ok p)
  ∧ (¬ fits ↔ feedback_pattern guess target = Raise IndexError)
  ∧ (∀ p, feedback_pattern guess target = Ok p →
          length p = 5%nat ∧ Forall is_mark p).
Proof. exact (feedback_pattern_fits guess target). Qed.

(** ** Pattern Codec: the all-CORRECT pattern *)

Lemma chars_inj (a b : string) : chars a = chars b → a = b.
Proof.
  unfold chars. intros H.
  rewrite <- (String.string_of_list_ascii_of_string a),
    <- (String.string_of_list_ascii_of_string b). by rewrite H.
Qed.

Lemma mark_rest_all_correct (guess : list ascii) :
  ∀ target avail, length guess = length target →
    mark_rest guess target avail = replicate (length guess) CORRECT
    ↔ guess = target.
Proof.
  induction guess as [|g guess IH]; intros [|t target] avail Hlen; try done.
  cbn [mark_rest length replicate]. simpl in Hlen.
  case_bool_decide as Hgt.
  - subst t. split.
    + intros [= H]. f_equal. eapply IH; [lia | exact H].
    + intros [= ->]. f_equal. apply IH; [lia | done].
  - split; [|congruence]. case_bool_decide; discriminate.
Qed.

Lemma filter_eq_absent {A : Type} `{EqDecision A} (x : A) (l : list A) :
  x ∉ l → filter (λ y, y = x) l = [].
Proof.
  induction l as [|y l IH]; [done|].
  rewrite not_elem_of_cons. intros [Hne Hx].
  rewrite filter_cons_False by congruence. by apply IH.
Qed.

Lemma filter_eq_NoDup {A : Type} `{EqDecision A} (x : A) (l : list A) :
  NoDup l → x ∈ l → filter (λ y, y = x) l = [x].
Proof.
  induction 1 as [|y l Hy Hnd IH]; [by intros ?%elem_of_nil|].
  rewrite elem_of_cons. destruct (decide (y = x)) as [->|Hne].
  - intros _. rewrite filter_cons_True by done. f_equal.
    by apply filter_eq_absent.
  - intros [-> | Hx]; [done|]. rewrite filter_cons_False by done. by apply IH.
Qed.

Lemma feedback_reference_same (guess target : string) :
  is_word guess → is_word target →
  feedback_reference guess target = [CORRECT; CORRECT; CORRECT; CORRECT; CORRECT]
  ↔ guess = target.
Proof.
  unfold is_word. rewrite <- !chars_length. intros Hg Ht.
  unfold feedback_reference.
  change [CORRECT; CORRECT; CORRECT; CORRECT; CORRECT] with (replicate 5 CORRECT).
  rewrite <- Hg, mark_rest_all_correct by lia.
  split; [apply chars_inj | by intros ->].
Qed.

Lemma feedback_all_correct_words (guess target : string) :
  is_word guess → is_word target →
  feedback_pattern guess target = Ok [CORRECT; CORRECT; CORRECT; CORRECT; CORRECT]
  ↔ guess = target.
Proof.
  intros Hg Ht. rewrite feedback_pattern_reference by done.
  rewrite <- (feedback_reference_same guess target Hg Ht).
  split; [by intros [= ->] | by intros ->].
Qed.

(** X2. For five-letter words the feedback is all-CORRECT exactly when the
    guess is the target. *)
Theorem feedback_all_correct_iff (guess target : string) :
  is_word guess → is_word target →
  feedback_pattern guess target = Ok [CORRECT; CORRECT; CORRECT; CORRECT; CORRECT]
  ↔ guess = target.
Proof. exact (feedback_all_correct_words guess target). Qed.

Lemma feedback_all_correct_iff_witness :
  is_word "crane" ∧ is_word "trace"
  ∧ (feedback_pattern "crane" "trace"
       = Ok [CORRECT; CORRECT; CORRECT; CORRECT; CORRECT]
     ↔ "crane" = "trace").
Proof.
  split; [reflexivity|]. split; [reflexivity|].
  apply (feedback_all_correct_iff "crane" "trace"); reflexivity.
Defined.

Lemma filter_ext_Forall {A : Type} (P Q : A → Prop)
    `{!∀ x, Decision (P x), !∀ x, Decision (Q x)} (l : list A) :
  Forall (λ x, P x ↔ Q x) l → filter P l = filter Q l.
Proof.
  induction 1 as [|x l Hx _ IH]; [done|].
  destruct (decide (P x)) as [HP|HP].
  - rewrite !filter_cons_True by tauto. by f_equal.
  - rewrite !filter_cons_False by tauto. done.
Qed.

(** X3. Filtering a duplicate-free list of words that holds the guess by
    the all-CORRECT pattern leaves exactly the guess. *)
Theorem filter_candidates_all_correct (cands : list string) (guess : string) :
  is_word guess → Forall is_word cands → NoDup cands → guess ∈ cands →
  filter_candidates cands guess [CORRECT; CORRECT; CORRECT; CORRECT; CORRECT]
  = Ok [guess].
Proof.
  intros Hg Hc Hnd Hin. rewrite filter_candidates_words by done. f_equal.
  rewrite <- (filter_eq_NoDup guess cands Hnd Hin).
  apply filter_ext_Forall. eapply Forall_impl; [exact Hc|].
  intros w Hw. cbn beta. rewrite feedback_all_correct_words by done.
  split; congruence.
Qed.

Lemma filter_candidates_all_correct_witness :
  is_word "trace" ∧ Forall is_word ["crane"; "trace"; "slate"]
  ∧ NoDup ["crane"; "trace"; "slate"] ∧ "trace" ∈ ["crane"; "trace"; "slate"]
  ∧ filter_candidates ["crane"; "trace"; "slate"] "trace"
      [CORRECT; CORRECT; CORRECT; CORRECT; CORRECT] = Ok ["trace"].
Proof.
  assert (Hw : Forall is_word ["crane"; "trace"; "slate"]) by repeat constructor.
  assert (Hnd : NoDup ["crane"; "trace"; "slate"])
    by (by apply (bool_decide_unpack _)).
  assert (Hin : "trace" ∈ ["crane"; "trace"; "slate"])
    by (by apply (bool_decide_unpack _)).
  split; [reflexivity|]. split; [exact Hw|]. split; [exact Hnd|].
  split; [exact Hin|].
  apply (filter_candidates_all_correct ["crane"; "trace"; "slate"] "trace"
           eq_refl Hw Hnd Hin).
Defined.

(** ** Pattern Codec: repeated letters *)

Lemma exact_count_le_guess (c : ascii) (guess : list ascii) :
  ∀ target, (exact_count c guess target ≤ letter_count c guess)%nat.
Proof.
  induction guess as [|g guess IH]; intros [|t target];
    cbn [exact_count letter_count]; try lia.
  specialize (IH target). repeat case_bool_decide; try lia; tauto.
Qed.

Lemma exact_count_le_target (c : ascii) (guess : list ascii) :
  ∀ target, (exact_count c guess target ≤ letter_count c target)%nat.
Proof.
  induction guess as [|g guess IH]; intros [|t target];
    cbn [exact_count letter_count]; try lia.
  specialize (IH target). repeat case_bool_decide; try lia; tauto.
Qed.

Lemma mark_rest_marked (c : ascii) (guess : list ascii) :
  ∀ target avail, length guess = length target →
    marked_count c guess (mark_rest guess target avail)
    = (exact_count c guess target
       + (letter_count c guess - exact_count c guess target)
         `min` multiplicity c avail)%nat.
Proof.
  induction guess as [|g guess IH]; intros [|t target] avail Hlen; try done.
  simpl in Hlen. cbn [mark_rest].
  pose proof (exact_count_le_guess c guess target) as Hle.
  destruct (decide (g = t)) as [->|Hgt].
  - rewrite (bool_decide_true (t = t)) by done.
    cbn [marked_count exact_count letter_count]. rewrite IH by lia.
    destruct (decide (t = c)) as [->|Hc].
    + rewrite !bool_decide_true by (done || (split; done)). lia.
    + rewrite !bool_decide_false by (done || intros [? ?]; done). lia.
  - rewrite (bool_decide_false (g = t)) by done.
    destruct (decide (g ∈ avail)) as [Hin|Hnin].
    + rewrite (bool_decide_true (g ∈ avail)) by done.
      cbn [marked_count exact_count letter_count]. rewrite IH by lia.
      rewrite multiplicity_difference, multiplicity_singleton.
      assert (Hpos : (0 < multiplicity g avail)%nat)
        by (by apply elem_of_multiplicity).
      destruct (decide (g = c)) as [->|Hc].
      * rewrite (bool_decide_true (c = c ∧ PRESENT ≠ ABSENT)) by (split; done).
        rewrite (bool_decide_false (c = c ∧ t = c)) by (intros [? ?]; congruence).
        rewrite (bool_decide_true (c = c)) by done.
        rewrite decide_True by done. lia.
      * rewrite (bool_decide_false (g = c ∧ _)) by (intros [? ?]; done).
        rewrite (bool_decide_false (g = c ∧ t = c)) by (intros [? ?]; done).
        rewrite (bool_decide_false (g = c)) by done.
        rewrite decide_False by congruence. lia.
    + rewrite (bool_decide_false (g ∈ avail)) by done.
      cbn [marked_count exact_count letter_count]. rewrite IH by lia.
      rewrite (bool_decide_false (g = c ∧ ABSENT ≠ ABSENT)) by (intros [? ?]; done).
      destruct (decide (g = c)) as [->|Hc].
      * rewrite (bool_decide_false (c = c ∧ t = c)) by (intros [? ?]; congruence).
        rewrite (bool_decide_true (c = c)) by done.
        assert (multiplicity c avail = 0%nat).
        { destruct (multiplicity c avail) eqn:Hm; [done|].
          destruct Hnin. apply elem_of_multiplicity. lia. }
        lia.
      * rewrite (bool_decide_false (g = c ∧ t = c)) by (intros [? ?]; done).
        rewrite (bool_decide_false (g = c)) by done. lia.
Qed.

Lemma greens_slots_multiplicity (c : ascii) (guess : list ascii) :
  ∀ target, length guess = length target →
    multiplicity c (bag (greens_slots guess target))
    = (letter_count c target - exact_count c guess target)%nat.
Proof.
  induction guess as [|g guess IH]; intros [|t target] Hlen; try done.
  simpl in Hlen. unfold greens_slots. cbn [zip_with].
  fold (greens_slots guess target). cbn [letter_count exact_count].
  pose proof (exact_count_le_target c guess target) as Hle.
  specialize (IH target ltac:(lia)).
  destruct (decide (g = t)) as [->|Hgt].
  - rewrite (bool_decide_true (t = t)) by done. rewrite bag_cons_None, IH.
    destruct (decide (t = c)) as [->|Hc].
    + rewrite !bool_decide_true by (done || (split; done)). lia.
    + rewrite !bool_decide_false by (done || intros [? ?]; done). lia.
  - rewrite (bool_decide_false (g = t)) by done.
    rewrite bag_cons_Some, multiplicity_disj_union, multiplicity_singleton, IH.
    rewrite (bool_decide_false (g = c ∧ t = c)) by (intros [? ?]; congruence).
    destruct (decide (t = c)) as [->|Hc].
    + rewrite bool_decide_true, decide_True by done. lia.
    + rewrite bool_decide_false, decide_False by congruence. lia.
Qed.

(** X4. On five-letter words, for every letter the number of positions of
    the guess that hold the letter and are marked PRESENT or CORRECT is
    the smaller of the letter's number of occurrences in the guess and in
    the target: a repeated letter is never credited more often than the
    target holds it, and never less. *)
Theorem feedback_pattern_letter_budget (guess target : string) (c : ascii) :
  is_word guess → is_word target →
  ∃ p, feedback_pattern guess target = Ok p
       ∧ marked_count c (chars guess) p
         = (letter_count c (chars guess) `min` letter_count c (chars target))%nat.
Proof.
  intros Hg Ht. exists (feedback_reference guess target).
  split; [by apply feedback_pattern_reference|].
  unfold is_word in Hg, Ht. rewrite <- chars_length in Hg, Ht.
  unfold feedback_reference. rewrite mark_rest_marked by lia.
  pose proof (consume_correct_bag (chars guess) (chars target) ∅ ltac:(lia)) as Hc.
  rewrite !(left_id_L ∅ (⊎)) in Hc. rewrite Hc.
  rewrite greens_slots_multiplicity by lia.
  pose proof (exact_count_le_guess c (chars guess) (chars target)).
  pose proof (exact_count_le_target c (chars guess) (chars target)).
  lia.
Qed.

Lemma feedback_pattern_letter_budget_witness :
  is_word "eerie" ∧ is_word "crane"
  ∧ ∃ p, feedback_pattern "eerie" "crane" = Ok p
         ∧ marked_count "e" (chars "eerie") p
           = (letter_count "e" (chars "eerie")
              `min` letter_count "e" (chars "crane"))%nat.
Proof.
  split; [reflexivity|]. split; [reflexivity|].
  apply (feedback_pattern_letter_budget "eerie" "crane" "e"); reflexivity.
Defined.

(** ** Candidate Filter and Solver Session: what survives *)

(** X5. On words, filtering by two guess records gives the same list in
    either order. *)
Theorem filter_candidates_commute (cands : list string) (g1 g2 : string)
    (p1 p2 : pattern) :
  is_word g1 → is_word g2 → Forall is_word cands →
  (filter_candidates cands g1 p1 ≫= λ kept, filter_candidates kept g2 p2)
  = (filter_candidates cands g2 p2 ≫= λ kept, filter_candidates kept g1 p1).
Proof.
  intros H1 H2 Hc.
  rewrite !(filter_candidates_words cands) by done. cbn [mbind Res_bind].
  rewrite !filter_candidates_words by (done || by apply Forall_filter_keep).
  f_equal. rewrite !list_filter_filter. apply list_filter_iff. tauto.
Qed.

Lemma filter_candidates_commute_witness :
  is_word "crane" ∧ is_word "slate"
  ∧ Forall is_word ["trace"; "stale"; "plate"]
  ∧ (filter_candidates ["trace"; "stale"; "plate"] "crane" [1; 2; 2; 0; 2]
     ≫= λ kept, filter_candidates kept "slate" [0; 0; 2; 1; 2])
    = (filter_candidates ["trace"; "stale"; "plate"] "slate" [0; 0; 2; 1; 2]
       ≫= λ kept, filter_candidates kept "crane" [1; 2; 2; 0; 2]).
Proof.
  assert (Hw : Forall is_word ["trace"; "stale"; "plate"]) by repeat constructor.
  split; [reflexivity|]. split; [reflexivity|]. split; [exact Hw|].
  apply (filter_candidates_commute ["trace"; "stale"; "plate"] "crane" "slate"
           [1; 2; 2; 0; 2] [0; 0; 2; 1; 2] eq_refl eq_refl Hw).
Defined.

Section Survival.

Variable zipf_frequency : string → string → R.

Lemma guess_keeps_answer (s : WordleSolver) (answer word : string) (pat : pattern)
    alpha topk restrict_guesses :
  answer ∈ candidates s → feedback_pattern word answer = Ok pat →
  answer ∈ candidates (guess zipf_frequency s word pat alpha topk restrict_guesses).1.
Proof.
  intros Hin Hfb.
  destruct (guess_state zipf_frequency s word pat alpha topk restrict_guesses)
    as (_ & _ & [-> | Hf]); [done|].
  apply filter_candidates_sublist in Hf as [_ Hmem]. by apply Hmem.
Qed.

Lemma run_calls_keep_answer (answer : string) (cs : list call) :
  ∀ s, answer ∈ candidates s → answer ∈ all_words s →
       Forall (truthful answer) cs →
       answer ∈ candidates (run_calls zipf_frequency s cs).
Proof.
  induction cs as [|c cs IH]; intros s Hc Ha Hcs; [done|].
  apply Forall_cons in Hcs as [Hc1 Hcs]. cbn [run_calls foldl].
  apply IH; [| |done].
  - destruct c as [word pat alpha topk restrict_guesses|]; cbn [run_call].
    + by apply guess_keeps_answer.
    + done.
  - destruct c as [word pat alpha topk restrict_guesses|]; cbn [run_call].
    + by destruct (guess_state zipf_frequency s word pat alpha topk
                     restrict_guesses) as (-> & _).
    + done.
Qed.

Lemma filter_always {A : Type} (P : A → Prop) `{!∀ x, Decision (P x)} (l : list A) :
  Forall P l → filter P l = l.
Proof.
  induction 1 as [|x l Hx _ IH]; [done|].
  rewrite filter_cons_True by done. by f_equal.
Qed.

Lemma run_guesses_candidates (cs : list call) :
  ∀ s, Forall is_word (candidates s) → Forall guess_on_word cs →
    candidates (run_calls zipf_frequency s cs)
    = filter (λ w, is_consistent w (records cs) = Ok true) (candidates s)
    ∧ history (run_calls zipf_frequency s cs) = history s ++ records cs.
Proof.
  induction cs as [|c cs IH]; intros s Hw Hcs.
  - cbn. rewrite app_nil_r. split; [|done].
    symmetry. apply filter_always. by apply Forall_forall.
  - apply Forall_cons in Hcs as [[Hg Hwf] Hcs].
    destruct c as [word pat alpha topk restrict_guesses|]; [|done].
    cbn [run_calls foldl run_call].
    fold (run_calls zipf_frequency
            (guess zipf_frequency s word pat alpha topk restrict_guesses).1 cs).
    cbn in Hwf.
    pose proof (guess_state_words zipf_frequency s word pat alpha topk
                  restrict_guesses Hwf Hw) as Hc1.
    destruct (guess_state zipf_frequency s word pat alpha topk restrict_guesses)
      as (_ & Hh1 & _).
    destruct (IH (guess zipf_frequency s word pat alpha topk restrict_guesses).1)
      as [Hc Hh]; [rewrite Hc1; by apply Forall_filter_keep | done |].
    rewrite Hc, Hh, Hc1, Hh1. cbn [records omap list_omap].
    fold (records cs). split; [|by rewrite <- (assoc_L (++))].
    rewrite list_filter_filter. apply list_filter_iff. intros w.
    rewrite !is_consistent_true, Forall_cons. cbn [fst snd]. tauto.
Qed.

End Survival.

(** X6. A word of the initial candidates is never lost while every guess
    reports the feedback that word really gives: after any sequence of such
    guesses, resets included when the word is in the full dictionary, it is
    still a candidate. *)
Theorem answer_never_eliminated
    (top_n_list : string → Z → list string) (zipf_frequency : string → string → R)
    (n_top : Z) (filter_past_answers : bool) (scrape : option (list string))
    (answer : string) (calls : list call) :
  answer ∈ candidates
             (WordleSolver_init top_n_list n_top filter_past_answers scrape) →
  Forall (truthful answer) calls →
  answer ∈ candidates
             (run_calls zipf_frequency
                (WordleSolver_init top_n_list n_top filter_past_answers scrape)
                calls).
Proof.
  intros Hin Hcalls. apply run_calls_keep_answer; [done| |done].
  unfold WordleSolver_init in *. cbn [candidates all_words] in *.
  destruct filter_past_answers; [|done].
  unfold build_dictionary in Hin |- *. destruct scrape; [|done].
  by apply list_elem_of_filter in Hin as [_ ?].
Qed.

Lemma answer_never_eliminated_witness :
  "trace" ∈ candidates (WordleSolver_init sample_corpus 100000 true (Some ["crane"]))
  ∧ Forall (truthful "trace")
      [CallGuess "slate" [0; 0; 2; 1; 2] (7 / 10) 5 false; CallReset;
       CallGuess "crane" [1; 2; 2; 0; 2] (7 / 10) 5 true]
  ∧ "trace" ∈ candidates
       (run_calls sample_zipf
          (WordleSolver_init sample_corpus 100000 true (Some ["crane"]))
          [CallGuess "slate" [0; 0; 2; 1; 2] (7 / 10) 5 false; CallReset;
           CallGuess "crane" [1; 2; 2; 0; 2] (7 / 10) 5 true]).
Proof.
  assert (Hin : "trace" ∈ candidates
                  (WordleSolver_init sample_corpus 100000 true (Some ["crane"]))).
  { replace (candidates _) with ["plate"; "slate"; "stale"; "trace"]
      by (vm_compute; reflexivity).
    by apply (bool_decide_unpack _). }
  assert (Hcalls : Forall (truthful "trace")
      [CallGuess "slate" [0; 0; 2; 1; 2] (7 / 10) 5 false; CallReset;
       CallGuess "crane" [1; 2; 2; 0; 2] (7 / 10) 5 true]).
  { repeat constructor. }
  split; [exact Hin|]. split; [exact Hcalls|].
  apply (answer_never_eliminated sample_corpus sample_zipf 100000 true
           (Some ["crane"]) "trace" _ Hin Hcalls).
Defined.

(** X7. After any sequence of guesses on words, the candidates of a fresh
    session are exactly the initial candidates that [is_consistent] accepts
    against the recorded history, in their initial order. *)
Theorem candidates_are_the_consistent_words
    (top_n_list : string → Z → list string) (zipf_frequency : string → string → R)
    (n_top : Z) (filter_past_answers : bool) (scrape : option (list string))
    (calls : list call) :
  Forall guess_on_word calls →
  let s0 := WordleSolver_init top_n_list n_top filter_past_answers scrape in
  let s := run_calls zipf_frequency s0 calls in
  history s = records calls
  ∧ candidates s
    = filter (λ w, is_consistent w (history s) = Ok true) (candidates s0).
Proof.
  intros Hcalls s0 s.
  destruct (run_guesses_candidates zipf_frequency calls s0) as [Hc Hh];
    [apply WordleSolver_init_inv | done |].
  fold s in Hc, Hh. rewrite Hh. cbn. by split.
Qed.

Lemma candidates_are_the_consistent_words_witness :
  Forall guess_on_word [CallGuess "slate" [0; 0; 2; 1; 2] (7 / 10) 5 false]
  ∧ let s0 := WordleSolver_init sample_corpus 100000 false None in
    let s := run_calls sample_zipf s0
               [CallGuess "slate" [0; 0; 2; 1; 2] (7 / 10) 5 false] in
    history s = records [CallGuess "slate" [0; 0; 2; 1; 2] (7 / 10) 5 false]
    ∧ candidates s
      = filter (λ w, is_consistent w (history s) = Ok true) (candidates s0).
Proof.
  assert (Hcalls : Forall guess_on_word
            [CallGuess "slate" [0; 0; 2; 1; 2] (7 / 10) 5 false]).
  { repeat constructor. }
  split; [exact Hcalls|].
  apply (candidates_are_the_consistent_words sample_corpus sample_zipf 100000
           false None _ Hcalls).
Defined.

(** ** Dictionary provider *)

Lemma char_lower_is_lower (c : ascii) :
  is_upper c || is_lower c = true → is_lower (char_lower c) = true.
Proof.
  unfold char_lower. destruct (is_upper c) eqn:Hup; [|done]. intros _.
  unfold is_upper in Hup. unfold is_lower. cbn zeta in *.
  apply andb_true_iff in Hup as [H1%Nat.leb_le H2%Nat.leb_le].
  rewrite nat_ascii_embedding by lia.
  apply andb_true_iff. split; apply Nat.leb_le; lia.
Qed.

Lemma chars_lower (w : string) : chars (lower w) = char_lower <$> chars w.
Proof.
  induction w as [|c w IH]; [done|].
  change (chars (lower (String c w))) with (char_lower c :: chars (lower w)).
  by rewrite IH.
Qed.

Lemma lower_lowercase (w : string) : isalpha w = true → lowercase (lower w).
Proof.
  unfold isalpha, lowercase. intros [_ Hall]%andb_true_iff.
  rewrite chars_lower. induction (chars w) as [|c l IH]; [done|].
  cbn in Hall |- *. apply andb_true_iff in Hall as [Hc Hl].
  rewrite char_lower_is_lower by done. by apply IH.
Qed.

Lemma StronglySorted_filter {A : Type} (R : relation A) (P : A → Prop)
    `{!∀ x, Decision (P x)} (l : list A) :
  StronglySorted R l → StronglySorted R (filter P l).
Proof.
  induction 1 as [|x l Hs IH Hall]; [constructor|].
  destruct (decide (P x)).
  - rewrite filter_cons_True by done. constructor; [done|].
    by apply Forall_filter_keep.
  - by rewrite filter_cons_False.
Qed.

(** X8. For a corpus of ASCII strings, whatever the scrape returns, the
    dictionary is in strictly ascending order, hence free of duplicates,
    and each of its entries has five characters, all of them lowercase
    letters. *)
Theorem build_dictionary_sorted_words
    (top_n_list : string → Z → list string) (n_top : Z)
    (filter_past_answers : bool) (scrape : option (list string)) :
  Forall is_ascii (top_n_list "en" n_top) →
  let dictionary := build_dictionary top_n_list n_top filter_past_answers scrape in
  StronglySorted str_lt dictionary
  ∧ NoDup dictionary
  ∧ Forall (λ w, is_word w ∧ lowercase w) dictionary.
Proof.
  intros _ dictionary. subst dictionary. unfold build_dictionary.
  set (words := lower <$> filter _ (top_n_list "en" n_top)).
  set (word_set := merge_sort String.le (elements (list_to_set words : gset string))).
  assert (Hnd : NoDup word_set).
  { subst word_set. rewrite merge_sort_Permutation. apply NoDup_elements. }
  assert (Hsorted : StronglySorted str_lt word_set).
  { assert (Hle : StronglySorted String.le word_set)
      by (apply StronglySorted_merge_sort; apply _).
    clear -Hle Hnd. induction Hle as [|x l Hl IH Hall]; [constructor|].
    apply NoDup_cons in Hnd as [Hx Hnd]. constructor; [by apply IH|].
    rewrite Forall_forall in Hall |- *. intros y Hy.
    apply str_lt_of_le; [by apply Hall|]. by intros ->. }
  assert (Hwords : Forall (λ w, is_word w ∧ lowercase w) word_set).
  { apply Forall_forall. intros w Hw. subst word_set.
    rewrite merge_sort_Permutation in Hw.
    apply elem_of_elements, elem_of_list_to_set in Hw. subst words.
    apply list_elem_of_fmap in Hw as (w0 & -> & [[Hlen Ha] _]%list_elem_of_filter).
    split; [unfold is_word; by rewrite lower_length|].
    apply lower_lowercase. by destruct (isalpha w0). }
  destruct filter_past_answers; [|done].
  destruct scrape as [past_answers|]; [|done].
  split; [by apply StronglySorted_filter|].
  split; [by apply NoDup_filter | by apply Forall_filter_keep].
Qed.

Lemma build_dictionary_sorted_words_witness :
  Forall is_ascii (sample_corpus "en" 100000)
  ∧ build_dictionary sample_corpus 100000 true (Some ["crane"])
    = ["plate"; "slate"; "stale"; "trace"]
  ∧ let dictionary := build_dictionary sample_corpus 100000 true (Some ["crane"]) in
    StronglySorted str_lt dictionary
    ∧ NoDup dictionary
    ∧ Forall (λ w, is_word w ∧ lowercase w) dictionary.
Proof.
  assert (Hascii : Forall is_ascii (sample_corpus "en" 100000)).
  { repeat constructor; cbn; lia. }
  split; [exact Hascii|]. split; [reflexivity|].
  exact (build_dictionary_sorted_words sample_corpus 100000 true (Some ["crane"])
           Hascii).
Defined.

(** ** Parallel Dispatcher: what is suggested *)

Lemma slice_to_fmap {A B : Type} (f : A → B) (k : Z) (xs : list A) :
  f <$> slice_to k xs = slice_to k (f <$> xs).
Proof. unfold slice_to. rewrite length_fmap. case_bool_decide; apply fmap_take. Qed.

Lemma slice_to_sublist {A : Type} (k : Z) (xs : list A) :
  slice_to k xs `sublist_of` xs.
Proof. unfold slice_to. case_bool_decide; apply sublist_take. Qed.

Lemma slice_to_exact_length {A : Type} (k : Z) (xs : list A) :
  length (slice_to k xs)
  = if bool_decide (0 ≤ k) then (Z.to_nat k `min` length xs)%nat
    else (length xs - Z.to_nat (- k))%nat.
Proof. unfold slice_to. case_bool_decide; rewrite length_take; lia. Qed.

Lemma suggest_guesses_pool (zipf_frequency : string → string → R)
    (cands all : list string) (alpha : R) (topk : Z) (restrict_guesses : bool) :
  Forall is_word (if restrict_guesses then cands else all) →
  Forall is_word cands →
  ∃ ws,
    suggest_guesses zipf_frequency cands all alpha topk restrict_guesses = Ok ws
    ∧ ws ⊆+ (if restrict_guesses then cands else all)
    ∧ length ws
      = if bool_decide (0 ≤ topk)
        then (Z.to_nat topk `min` length (if restrict_guesses then cands else all))%nat
        else (length (if restrict_guesses then cands else all)
              - Z.to_nat (- topk))%nat.
Proof.
  intros Hp Hc. rewrite suggest_guesses_serial.
  set (pool := if restrict_guesses then cands else all) in *.
  destruct (serial_scores_total zipf_frequency pool cands alpha Hp Hc)
    as [scores Hs].
  unfold suggest_serial. rewrite Hs. cbn [mbind Res_bind].
  destruct (serial_scores_Ok_inv _ _ _ _ _ Hs) as [Hwords _].
  eexists. split; [done|]. unfold rank. rewrite slice_to_fmap.
  assert (Hperm : (sort_reverse scores).*2 ≡ₚ pool).
  { by rewrite sort_reverse_Permutation, Hwords. }
  split.
  - etrans; [apply sublist_submseteq, slice_to_sublist|].
    by apply Permutation_submseteq.
  - rewrite slice_to_exact_length. by rewrite (Permutation_length Hperm).
Qed.

(** X10. On words [suggest_guesses] returns, and the result is drawn from
    the guess pool: no word that is not in the pool, none more often than
    the pool holds it. For topk >= 0 it holds min(topk, |pool|) words; for a
    negative topk the slice drops the last -topk words of the ranking. *)
Theorem suggest_guesses_from_pool (zipf_frequency : string → string → R)
    (cands all : list string) (alpha : R) (topk : Z) (restrict_guesses : bool) :
  Forall is_word (if restrict_guesses then cands else all) →
  Forall is_word cands →
  ∃ ws,
    suggest_guesses zipf_frequency cands all alpha topk restrict_guesses = Ok ws
    ∧ ws ⊆+ (if restrict_guesses then cands else all)
    ∧ length ws
      = if bool_decide (0 ≤ topk)
        then (Z.to_nat topk `min` length (if restrict_guesses then cands else all))%nat
        else (length (if restrict_guesses then cands else all)
              - Z.to_nat (- topk))%nat.
Proof. exact (suggest_guesses_pool zipf_frequency cands all alpha topk restrict_guesses). Qed.

Lemma suggest_guesses_from_pool_witness :
  Forall is_word ["crane"; "trace"; "slate"]
  ∧ ∃ ws,
      suggest_guesses sample_zipf ["crane"; "trace"; "slate"] ["stale"]
        (7 / 10) (-1) true = Ok ws
      ∧ ws ⊆+ ["crane"; "trace"; "slate"]
      ∧ length ws
        = if bool_decide (0 ≤ -1)
          then (Z.to_nat (-1) `min` length ["crane"; "trace"; "slate"])%nat
          else (length ["crane"; "trace"; "slate"] - Z.to_nat (- -1))%nat.
Proof.
  assert (Hw : Forall is_word ["crane"; "trace"; "slate"]) by repeat constructor.
  split; [exact Hw|].
  apply (suggest_guesses_from_pool sample_zipf ["crane"; "trace"; "slate"]
           ["stale"] (7 / 10) (-1) true Hw Hw).
Defined.

(** X11. For a duplicate-free pool, every suggested word outranks every
    pool word that was not suggested: the score the code computed for it is
    higher, or equal with a lexicographically greater word. The scores are
    the doubles of the code under any float arithmetic; every pool word is
    scored, and no score is NaN. *)
Theorem suggest_guesses_keeps_the_best (A : Doubles.arithmetic)
    (zipf_frequency : string → string → Doubles.double A)
    (cands all : list string) (alpha : Doubles.double A) (topk : Z)
    (restrict_guesses : bool) :
  Doubles.ordered A →
  NoDup (if restrict_guesses then cands else all) →
  (∀ w, w ∈ (if restrict_guesses then cands else all) →
        ∃ s, Doubles.hybrid_score A zipf_frequency w cands alpha = Ok s
             ∧ Doubles.not_nan A s) →
  ∃ ws,
    Doubles.suggest_guesses A zipf_frequency cands all alpha topk restrict_guesses
    = Ok ws
    ∧ ∀ w w', w ∈ ws → w' ∈ (if restrict_guesses then cands else all) →
        w' ∉ ws →
        ∃ s s',
          Doubles.hybrid_score A zipf_frequency w cands alpha = Ok s
          ∧ Doubles.hybrid_score A zipf_frequency w' cands alpha = Ok s'
          ∧ (Doubles.flt A s' s = true
             ∨ (Doubles.feq A s' s = true ∧ str_lt w' w)).
Proof.
  intros Hord Hnd Hscore. rewrite double_suggest_guesses_serial.
  set (pool := if restrict_guesses then cands else all) in *.
  destruct (double_ranking A Hord zipf_frequency pool cands alpha Hnd Hscore)
    as (scores & Hs & Hwords & Hsorted).
  unfold Doubles.suggest_serial. rewrite Hs. cbn [mbind Res_bind].
  eexists. split; [done|]. unfold Doubles.rank. intros w w' Hw Hw' Hnot.
  destruct (slice_to_prefix topk (Doubles.sort_reverse A scores)) as [rest Hrest].
  rewrite Hrest in Hsorted.
  apply list_elem_of_fmap in Hw as ([s w0] & -> & Hin).
  rewrite <- Hwords in Hw'.
  apply list_elem_of_fmap in Hw' as ([s' w0'] & -> & Hin').
  rewrite <- (double_sort_reverse_Permutation A scores), Hrest, elem_of_app in Hin'.
  destruct Hin' as [Hin' | Hin'].
  { destruct Hnot. apply list_elem_of_fmap. by exists (s', w0'). }
  pose proof (StronglySorted_app_1_elem_of _ _ _ _ _ Hsorted Hin Hin')
    as (Hgt & [H1 N1] & [H2 N2]).
  cbn [fst snd] in *. exists s, s'. split; [done|]. split; [done|].
  apply double_tuple_lt_lex in Hgt; [|done..]. exact Hgt.
Qed.

Lemma suggest_guesses_keeps_the_best_witness :
  Doubles.ordered Doubles.real_arithmetic
  ∧ NoDup ["crane"; "trace"; "slate"]
  ∧ (∀ w, w ∈ ["crane"; "trace"; "slate"] →
          ∃ s, Doubles.hybrid_score Doubles.real_arithmetic sample_zipf w
                 ["crane"; "trace"; "slate"] (7 / 10)%R = Ok s
               ∧ Doubles.not_nan Doubles.real_arithmetic s)
  ∧ ∃ ws,
      Doubles.suggest_guesses Doubles.real_arithmetic sample_zipf
        ["crane"; "trace"; "slate"] ["stale"] (7 / 10)%R 1 true = Ok ws
      ∧ ∀ w w', w ∈ ws → w' ∈ ["crane"; "trace"; "slate"] → w' ∉ ws →
          ∃ s s',
            Doubles.hybrid_score Doubles.real_arithmetic sample_zipf w
              ["crane"; "trace"; "slate"] (7 / 10)%R = Ok s
            ∧ Doubles.hybrid_score Doubles.real_arithmetic sample_zipf w'
                ["crane"; "trace"; "slate"] (7 / 10)%R = Ok s'
            ∧ (Doubles.flt Doubles.real_arithmetic s' s = true
               ∨ (Doubles.feq Doubles.real_arithmetic s' s = true
                  ∧ str_lt w' w)).
Proof.
  assert (Hnd : NoDup ["crane"; "trace"; "slate"])
    by (by apply (bool_decide_unpack _)).
  assert (Hw : Forall is_word ["crane"; "trace"; "slate"]) by repeat constructor.
  pose proof (real_scores_not_nan sample_zipf ["crane"; "trace"; "slate"]
                ["crane"; "trace"; "slate"] (7 / 10)%R Hw Hw) as Hscore.
  split; [exact real_arithmetic_ordered|]. split; [exact Hnd|].
  split; [exact Hscore|].
  apply (suggest_guesses_keeps_the_best Doubles.real_arithmetic sample_zipf
           ["crane"; "trace"; "slate"] ["stale"] (7 / 10)%R 1 true
           real_arithmetic_ordered Hnd Hscore).
Defined.

(** ** Solver Session: a guess that raises, a guess that solves *)

Lemma filter_candidates_long_guess (cands : list string) (word : string)
    (pat : pattern) :
  (5 < String.length word)%nat → cands ≠ [] →
  filter_candidates cands word pat = Raise IndexError.
Proof.
  intros Hlong Hne. destruct cands as [|w cands]; [done|].
  unfold filter_candidates. cbn [filterM]. unfold matches.
  destruct (feedback_pattern_fits word w) as (_ & Hraise & _).
  cbn zeta in Hraise. rewrite (proj1 Hraise) by lia. done.
Qed.

(** X12. [guess] does not check the word. With a word of more than five
    characters and at least one candidate it raises IndexError, and the solver
    is left with the record appended to the history and its candidates
    untouched. *)
Theorem guess_long_word_recorded (zipf_frequency : string → string → R)
    (s : WordleSolver) (word : string) (pat : pattern) (alpha : R) (topk : Z)
    (restrict_guesses : bool) :
  (5 < String.length word)%nat → candidates s ≠ [] →
  guess zipf_frequency s word pat alpha topk restrict_guesses
  = ({| all_words := all_words s;
        candidates := candidates s;
        history := history s ++ [(word, pat)] |}, Raise IndexError).
Proof.
  intros Hlong Hne. unfold guess. cbn [candidates history all_words].
  by rewrite filter_candidates_long_guess.
Qed.

Lemma guess_long_word_recorded_witness :
  (5 < String.length "cranes")%nat ∧ candidates sample_solver ≠ []
  ∧ guess sample_zipf sample_solver "cranes" [0; 0; 0; 0; 0] (7 / 10) 5 false
    = ({| all_words := all_words sample_solver;
          candidates := candidates sample_solver;
          history := history sample_solver ++ [("cranes", [0; 0; 0; 0; 0])] |},
       Raise IndexError).
Proof.
  assert (Hlong : (5 < String.length "cranes")%nat) by (cbn; lia).
  assert (Hne : candidates sample_solver ≠ []) by (vm_compute; discriminate).
  split; [exact Hlong|]. split; [exact Hne|].
  apply (guess_long_word_recorded sample_zipf sample_solver "cranes"
           [0; 0; 0; 0; 0] (7 / 10) 5 false Hlong Hne).
Defined.

(** X13. When the filter of a guess leaves exactly one candidate, [guess]
    returns that candidate as the only suggestion without scoring anything,
    and the endpoint reports one remaining candidate, [is_solved] true and
    the message naming the answer. *)
Theorem single_candidate_solved (zipf_frequency : string → string → R)
    (sessions : gmap string WordleSolver) (request : GuessRequest)
    (solver : WordleSolver) (answer : string) :
  let word := lower (req_word request) in
  let pat := req_pattern request in
  sessions !! req_session_id request = Some solver →
  isalpha word = true → String.length word = 5%nat →
  forallb (λ p, bool_decide (p ∈ [0; 1; 2])) pat = true →
  filter_candidates (candidates solver) word pat = Ok [answer] →
  let solved := {| all_words := all_words solver;
                   candidates := [answer];
                   history := history solver ++ [(word, pat)] |} in
  guess zipf_frequency solver word pat (req_alpha request) (req_topk request)
    (req_restrict_guesses request) = (solved, Ok [answer])
  ∧ submit_guess zipf_frequency sessions request
    = (<[req_session_id request := solved]> sessions,
       inr {| suggestions := [answer];
              candidates_remaining := 1;
              is_solved := true;
              message := Some ("Solved! Answer is '" +:+ answer +:+ "'") |}).
Proof.
  intros word pat Hsession Halpha Hlen Hpat Hfilter solved.
  assert (Hguess :
    guess zipf_frequency solver word pat (req_alpha request) (req_topk request)
      (req_restrict_guesses request) = (solved, Ok [answer])).
  { unfold guess. cbn [candidates history all_words]. by rewrite Hfilter. }
  split; [exact Hguess|].
  unfold submit_guess. rewrite Hsession. fold word pat.
  rewrite Halpha, Hpat, (bool_decide_true _ Hlen). cbn [negb orb].
  by rewrite Hguess.
Qed.

Lemma single_candidate_solved_witness :
  let request := {| req_session_id := "s1"; req_word := "CRANE";
                    req_pattern := [1; 2; 2; 0; 2]; req_alpha := (7 / 10)%R;
                    req_topk := 5; req_restrict_guesses := false |} in
  let sessions : gmap string WordleSolver := {["s1" := sample_solver]} in
  filter_candidates (candidates sample_solver) "crane" [1; 2; 2; 0; 2]
  = Ok ["trace"]
  ∧ submit_guess sample_zipf sessions request
    = (<["s1" := {| all_words := all_words sample_solver;
                    candidates := ["trace"];
                    history := [("crane", [1; 2; 2; 0; 2])] |}]> sessions,
       inr {| suggestions := ["trace"];
              candidates_remaining := 1;
              is_solved := true;
              message := Some "Solved! Answer is 'trace'" |}).
Proof.
  intros request sessions.
  assert (Hfilter :
    filter_candidates (candidates sample_solver) "crane" [1; 2; 2; 0; 2]
    = Ok ["trace"]) by (vm_compute; reflexivity).
  split; [exact Hfilter|].
  exact (proj2 (single_candidate_solved sample_zipf sessions request
                  sample_solver "trace" eq_refl eq_refl eq_refl eq_refl Hfilter)).
Defined.

(** ** The API over the session store *)

Section ApiFacts.

Variable top_n_list : string → Z → list string.
Variable zipf_frequency : string → string → R.

Lemma suggest_guesses_words_Ok (cands all : list string) alpha topk restrict_guesses :
  Forall is_word cands → Forall is_word all →
  ∃ ws, suggest_guesses zipf_frequency cands all alpha topk restrict_guesses = Ok ws.
Proof.
  intros Hc Ha.
  destruct (suggest_guesses_pool zipf_frequency cands all alpha topk
              restrict_guesses) as (ws & Hws & _); [by destruct restrict_guesses | done |].
  by exists ws.
Qed.

Lemma submit_guess_cases (sessions : gmap string WordleSolver) (request : GuessRequest) :
  let sid := req_session_id request in
  let word := lower (req_word request) in
  let pat := req_pattern request in
  let r := submit_guess zipf_frequency sessions request in
  (r.1 = sessions ∧ ∃ e, r.2 = inl e ∧ (status_code e = 404 ∨ status_code e = 400))
  ∨ (∃ solver, sessions !! sid = Some solver ∧ String.length word = 5%nat
       ∧ r.1 = <[sid := (guess zipf_frequency solver word pat (req_alpha request)
                           (req_topk request) (req_restrict_guesses request)).1]>
                 sessions
       ∧ match (guess zipf_frequency solver word pat (req_alpha request)
                  (req_topk request) (req_restrict_guesses request)).2 with
         | Raise e => ∃ err, r.2 = inl err ∧ status_code err = 500
         | Ok suggested =>
             ∃ resp, r.2 = inr resp
                     ∧ suggestions resp = suggested
                     ∧ candidates_remaining resp
                       = Z.of_nat (length (candidates
                           (guess zipf_frequency solver word pat (req_alpha request)
                              (req_topk request) (req_restrict_guesses request)).1))
         end).
Proof.
  intros sid word pat r. subst r. unfold submit_guess. fold sid word pat.
  destruct (sessions !! sid) as [solver|] eqn:Hs; [|left; eauto 10].
  destruct (isalpha word); cbn [negb orb]; [|left; eauto 10].
  case_bool_decide as Hlen; cbn [negb]; [|left; eauto 10].
  destruct (forallb _ pat); cbn [negb]; [|left; eauto 10].
  right. exists solver. split; [done|]. split; [done|].
  destruct (guess zipf_frequency solver word pat _ _ _) as [solver' [suggested|e]];
    cbn [fst snd]; split; try done; eauto.
Qed.

End ApiFacts.

Lemma initialize_solver_result
    (top_n_list : string → Z → list string) (zipf_frequency : string → string → R)
    (sessions : gmap string WordleSolver) (request : InitRequest)
    (uuid4 : string) (scrape : option (list string)) :
  let solver := WordleSolver_init top_n_list (init_n_top request)
                  (init_filter_past_answers request) scrape in
  ∃ suggested,
    initialize_solver top_n_list zipf_frequency sessions request uuid4 scrape
    = (<[uuid4 := solver]> sessions,
       inr {| init_session_id := uuid4;
              init_suggestions := suggested;
              total_candidates := Z.of_nat (length (candidates solver)) |})
    ∧ suggested ⊆+ (if init_restrict_guesses request
                    then candidates solver else all_words solver)
    ∧ get_session_info (<[uuid4 := solver]> sessions) uuid4
      = inr {| info_session_id := uuid4;
               info_candidates_remaining := Z.of_nat (length (candidates solver));
               guesses_made := 0 |}.
Proof.
  intros solver.
  destruct (WordleSolver_init_inv top_n_list (init_n_top request)
              (init_filter_past_answers request) scrape) as [Hall Hcands _].
  fold solver in Hall, Hcands.
  destruct (suggest_guesses_pool zipf_frequency (candidates solver)
              (all_words solver) (init_alpha request) (init_topk request)
              (init_restrict_guesses request))
    as (ws & Hws & Hsub & _); [by destruct (init_restrict_guesses request) | done |].
  exists ws. unfold initialize_solver, suggest_initial_guess. fold solver.
  rewrite Hws. split; [done|]. split; [done|].
  unfold get_session_info. rewrite lookup_insert_eq.
  subst solver. reflexivity.
Qed.

(** X14. For a corpus of ASCII strings [initialize_solver] never answers
    500: whatever the scrape and the options, it stores a new solver under
    the drawn id and returns suggestions drawn from the chosen pool together
    with the number of candidates; [get_session_info] on that id then
    reports that number and zero guesses. *)
Theorem initialize_solver_succeeds
    (top_n_list : string → Z → list string) (zipf_frequency : string → string → R)
    (sessions : gmap string WordleSolver) (request : InitRequest)
    (uuid4 : string) (scrape : option (list string)) :
  Forall is_ascii (top_n_list "en" (init_n_top request)) →
  let solver := WordleSolver_init top_n_list (init_n_top request)
                  (init_filter_past_answers request) scrape in
  ∃ suggested,
    initialize_solver top_n_list zipf_frequency sessions request uuid4 scrape
    = (<[uuid4 := solver]> sessions,
       inr {| init_session_id := uuid4;
              init_suggestions := suggested;
              total_candidates := Z.of_nat (length (candidates solver)) |})
    ∧ suggested ⊆+ (if init_restrict_guesses request
                    then candidates solver else all_words solver)
    ∧ get_session_info (<[uuid4 := solver]> sessions) uuid4
      = inr {| info_session_id := uuid4;
               info_candidates_remaining := Z.of_nat (length (candidates solver));
               guesses_made := 0 |}.
Proof.
  intros _.
  exact (initialize_solver_result top_n_list zipf_frequency sessions request
           uuid4 scrape).
Qed.

Lemma initialize_solver_succeeds_witness :
  let request := mkInitRequest 100000 true (7 / 10) 2 false in
  let solver := WordleSolver_init sample_corpus 100000 true (Some ["crane"]) in
  Forall is_ascii (sample_corpus "en" 100000)
  ∧ candidates solver = ["plate"; "slate"; "stale"; "trace"]
  ∧ all_words solver = ["crane"; "plate"; "slate"; "stale"; "trace"]
  ∧ ∃ suggested,
      initialize_solver sample_corpus sample_zipf ∅ request "id-1" (Some ["crane"])
      = (<["id-1" := solver]> ∅,
         inr {| init_session_id := "id-1";
                init_suggestions := suggested;
                total_candidates := 4 |})
      ∧ suggested ⊆+ all_words solver
      ∧ get_session_info (<["id-1" := solver]> ∅) "id-1"
        = inr {| info_session_id := "id-1";
                 info_candidates_remaining := 4;
                 guesses_made := 0 |}.
Proof.
  intros request solver.
  assert (Hascii : Forall is_ascii (sample_corpus "en" 100000)).
  { repeat constructor; cbn; lia. }
  split; [exact Hascii|]. split; [reflexivity|]. split; [reflexivity|].
  exact (initialize_solver_succeeds sample_corpus sample_zipf ∅ request "id-1"
           (Some ["crane"]) Hascii).
Defined.

(** X15. On a store whose sessions were all built by the constructor and
    driven through calls on words, [submit_guess] never answers 500: it
    either rejects the request with 404 or 400 and leaves the store as it
    was, or returns a response; in both cases the stored sessions are
    again in such a state. *)
Theorem submit_guess_never_fails
    (zipf_frequency : string → string → R)
    (sessions : gmap string WordleSolver) (request : GuessRequest) :
  sessions_inv sessions →
  let r := submit_guess zipf_frequency sessions request in
  sessions_inv r.1
  ∧ ((∃ e, r.2 = inl e ∧ (status_code e = 404 ∨ status_code e = 400)
           ∧ r.1 = sessions)
     ∨ ∃ resp, r.2 = inr resp).
Proof.
  intros Hinv r. subst r.
  destruct (submit_guess_cases zipf_frequency sessions request)
    as [[Hsame (e & He & Hcode)] | (solver & Hs & Hlen & Hstore & Hres)].
  - split; [by rewrite Hsame | left; eauto].
  - pose proof (map_Forall_lookup_1 _ _ _ _ Hinv Hs) as Hsolver.
    cbn beta in Hsolver.
    split.
    + rewrite Hstore. apply map_Forall_insert_2; [|done]. by apply guess_inv.
    + destruct (guess_words_Ok zipf_frequency solver (lower (req_word request))
                  (req_pattern request) (req_alpha request) (req_topk request)
                  (req_restrict_guesses request) Hlen Hsolver) as [ws Hws].
      rewrite Hws in Hres. destruct Hres as (resp & Hresp & _). right. eauto.
Qed.

Lemma submit_guess_never_fails_witness :
  let sessions : gmap string WordleSolver := {["s1" := sample_solver]} in
  let request := {| req_session_id := "s1"; req_word := "slate";
                    req_pattern := [0; 0; 2; 1; 2]; req_alpha := (7 / 10)%R;
                    req_topk := 5; req_restrict_guesses := true |} in
  let r := submit_guess sample_zipf sessions request in
  sessions_inv sessions
  ∧ sessions_inv r.1
  ∧ ((∃ e, r.2 = inl e ∧ (status_code e = 404 ∨ status_code e = 400)
           ∧ r.1 = sessions)
     ∨ ∃ resp, r.2 = inr resp).
Proof.
  intros sessions request r.
  assert (Hinv : sessions_inv sessions).
  { apply map_Forall_singleton. apply WordleSolver_init_inv. }
  split; [exact Hinv|].
  apply (submit_guess_never_fails sample_zipf sessions request Hinv).
Defined.

(** X16. Sessions are independent: a guess, a reset, a deletion or the
    creation of a session under one id leaves the solver stored under
    every other id as it was. *)
Theorem other_sessions_untouched
    (top_n_list : string → Z → list string) (zipf_frequency : string → string → R)
    (sessions : gmap string WordleSolver) (other : string) :
  (∀ request, req_session_id request ≠ other →
     (submit_guess zipf_frequency sessions request).1 !! other = sessions !! other)
  ∧ (∀ request, reset_session_id request ≠ other →
       (reset_session sessions request).1 !! other = sessions !! other)
  ∧ (∀ sid, sid ≠ other →
       (delete_session sessions sid).1 !! other = sessions !! other)
  ∧ (∀ request uuid4 scrape, uuid4 ≠ other →
       (initialize_solver top_n_list zipf_frequency sessions request uuid4 scrape).1
         !! other = sessions !! other).
Proof.
  split; [|split; [|split]].
  - intros request Hne.
    destruct (submit_guess_cases zipf_frequency sessions request)
      as [[-> _] | (solver & _ & _ & -> & _)]; [done|].
    by rewrite lookup_insert_ne.
  - intros request Hne. unfold reset_session.
    destruct (sessions !! reset_session_id request); [|done].
    cbn [fst]. by rewrite lookup_insert_ne.
  - intros sid Hne. unfold delete_session.
    destruct (sessions !! sid); [|done]. cbn [fst]. by rewrite lookup_delete_ne.
  - intros request uuid4 scrape Hne.
    destruct (initialize_solver_result top_n_list zipf_frequency sessions
                request uuid4 scrape) as (ws & -> & _).
    cbn [fst]. by rewrite lookup_insert_ne.
Qed.

(** X17. After a guess the endpoint accepted, [get_session_info] agrees with
    the response: it reports the response's number of remaining candidates,
    and one guess more than before. *)
Theorem submit_guess_then_info
    (zipf_frequency : string → string → R)
    (sessions : gmap string WordleSolver) (request : GuessRequest)
    (resp : GuessResponse) (before : SessionInfo) :
  (submit_guess zipf_frequency sessions request).2 = inr resp →
  get_session_info sessions (req_session_id request) = inr before →
  get_session_info (submit_guess zipf_frequency sessions request).1
    (req_session_id request)
  = inr {| info_session_id := req_session_id request;
           info_candidates_remaining := candidates_remaining resp;
           guesses_made := guesses_made before + 1 |}.
Proof.
  intros Hresp Hbefore.
  destruct (submit_guess_cases zipf_frequency sessions request)
    as [[_ (e & He & _)] | (solver & Hs & _ & Hstore & Hres)]; [congruence|].
  rewrite Hstore. unfold get_session_info in *. rewrite lookup_insert_eq.
  rewrite Hs in Hbefore. injection Hbefore as <-. cbn [guesses_made].
  destruct (guess_state zipf_frequency solver (lower (req_word request))
              (req_pattern request) (req_alpha request) (req_topk request)
              (req_restrict_guesses request)) as (_ & Hh & _).
  cbn zeta in Hh.
  destruct (guess zipf_frequency solver _ _ _ _ _) as [solver' [ws|e]];
    cbn [fst snd] in *.
  - destruct Hres as (resp' & Hresp' & _ & Hrem).
    rewrite Hresp in Hresp'. injection Hresp' as <-.
    rewrite Hrem, Hh, length_app. cbn [length]. do 2 f_equal. lia.
  - destruct Hres as (err & Herr & _). congruence.
Qed.

Lemma submit_guess_then_info_witness :
  let sessions : gmap string WordleSolver := {["s1" := sample_solver]} in
  let request := {| req_session_id := "s1"; req_word := "crane";
                    req_pattern := [0; 0; 0; 0; 0]; req_alpha := (7 / 10)%R;
                    req_topk := 5; req_restrict_guesses := true |} in
  let resp := {| suggestions := []; candidates_remaining := 0;
                 is_solved := false;
                 message := Some "No candidates remain - check your pattern" |} in
  let before := {| info_session_id := "s1"; info_candidates_remaining := 5;
                   guesses_made := 0 |} in
  (submit_guess sample_zipf sessions request).2 = inr resp
  ∧ get_session_info sessions "s1" = inr before
  ∧ get_session_info (submit_guess sample_zipf sessions request).1 "s1"
    = inr {| info_session_id := "s1";
             info_candidates_remaining := 0;
             guesses_made := 0 + 1 |}.
Proof.
  intros sessions request resp before.
  assert (Hresp : (submit_guess sample_zipf sessions request).2 = inr resp)
    by (vm_compute; reflexivity).
  assert (Hbefore : get_session_info sessions "s1" = inr before)
    by (vm_compute; reflexivity).
  split; [exact Hresp|]. split; [exact Hbefore|].
  apply (submit_guess_then_info sample_zipf sessions request resp before
           Hresp Hbefore).
Defined.

(** X18. Deleting a stored session removes it: [get_session_info] then
    answers 404, [health_check] counts one session less, and deleting it a
    second time answers 404 and changes nothing. *)
Theorem delete_session_removes
    (sessions : gmap string WordleSolver) (sid : string) (solver : WordleSolver) :
  sessions !! sid = Some solver →
  let r := delete_session sessions sid in
  r.2 = inr "Session deleted successfully"
  ∧ get_session_info r.1 sid
    = inl (mkHTTPException 404 (Literal "Session not found"))
  ∧ active_sessions (health_check r.1)
    = active_sessions (health_check sessions) - 1
  ∧ delete_session r.1 sid
    = (r.1, inl (mkHTTPException 404 (Literal "Session not found"))).
Proof.
  intros Hs r. subst r.
  assert (Hdel : delete_session sessions sid
                 = (delete sid sessions, inr "Session deleted successfully"))
    by (unfold delete_session; by rewrite Hs).
  rewrite Hdel. cbn [fst snd]. split; [done|].
  unfold get_session_info, delete_session, health_check.
  rewrite lookup_delete_eq. split; [done|]. split; [|done].
  cbn [active_sessions]. rewrite map_size_delete_Some by eauto.
  assert (size sessions ≠ 0%nat); [|lia].
  intros Hz%map_size_empty_iff. subst. by rewrite lookup_empty in Hs.
Qed.

Lemma delete_session_removes_witness :
  let sessions : gmap string WordleSolver := {["s1" := sample_solver]} in
  let r := delete_session sessions "s1" in
  sessions !! "s1" = Some sample_solver
  ∧ r.2 = inr "Session deleted successfully"
  ∧ get_session_info r.1 "s1"
    = inl (mkHTTPException 404 (Literal "Session not found"))
  ∧ active_sessions (health_check r.1)
    = active_sessions (health_check sessions) - 1
  ∧ delete_session r.1 "s1"
    = (r.1, inl (mkHTTPException 404 (Literal "Session not found"))).
Proof.
  intros sessions r. split; [reflexivity|].
  apply (delete_session_removes sessions "s1" sample_solver eq_refl).
Defined.

(** X19. [reset_session] on a stored session keeps its dictionary, empties
    its history and makes the whole dictionary the candidates again:
    [get_session_info] then reports zero guesses and as many candidates as
    the dictionary has words. On an unknown id it answers 404 and changes
    nothing. *)
Theorem reset_session_effect
    (sessions : gmap string WordleSolver) (request : ResetRequest) :
  let sid := reset_session_id request in
  let r := reset_session sessions request in
  match sessions !! sid with
  | None =>
      r = (sessions, inl (mkHTTPException 404 (Literal "Session not found")))
  | Some solver =>
      r.2 = inr "Session reset successfully"
      ∧ r.1 !! sid = Some {| all_words := all_words solver;
                             candidates := all_words solver;
                             history := [] |}
      ∧ get_session_info r.1 sid
        = inr {| info_session_id := sid;
                 info_candidates_remaining := Z.of_nat (length (all_words solver));
                 guesses_made := 0 |}
      ∧ active_sessions (health_check r.1) = active_sessions (health_check sessions)
  end.
Proof.
  intros sid r. subst r. unfold reset_session. fold sid.
  destruct (sessions !! sid) as [solver|] eqn:Hs; [|done].
  cbn [fst snd]. split; [done|]. unfold get_session_info, health_check.
  rewrite lookup_insert_eq. split; [done|]. split; [done|].
  cbn [active_sessions]. by rewrite map_size_insert_Some by eauto.
Qed.

(** ** Solver Session: candidates and suggestions stay in the dictionary *)

Section Dictionary.

Variable zipf_frequency : string → string → R.

Lemma run_calls_candidates_in_dictionary (cs : list call) :
  ∀ s, candidates s `sublist_of` all_words s →
       candidates (run_calls zipf_frequency s cs) `sublist_of` all_words s.
Proof.
  induction cs as [|c cs IH]; intros s Hs; [done|].
  cbn [run_calls foldl].
  fold (run_calls zipf_frequency (run_call zipf_frequency s c) cs).
  destruct c as [word pat alpha topk restrict_guesses|]; cbn [run_call].
  - destruct (guess_state zipf_frequency s word pat alpha topk restrict_guesses)
      as (Ha & _ & _).
    cbn zeta in Ha. rewrite <- Ha. apply IH. rewrite Ha.
    etrans; [apply guess_sublist | done].
  - apply (IH (reset s)). done.
Qed.

End Dictionary.

Lemma run_calls_dictionary
    (top_n_list : string → Z → list string) (zipf_frequency : string → string → R)
    (n_top : Z) (filter_past_answers : bool) (scrape : option (list string))
    (calls : list call) :
  let s0 := WordleSolver_init top_n_list n_top filter_past_answers scrape in
  let s := run_calls zipf_frequency s0 calls in
  all_words s = build_dictionary top_n_list n_top false scrape
  ∧ candidates s `sublist_of` all_words s.
Proof.
  intros s0 s. subst s.
  rewrite run_calls_all_words. split; [done|].
  apply run_calls_candidates_in_dictionary.
  subst s0. unfold WordleSolver_init. cbn [candidates all_words].
  destruct filter_past_answers; [|done].
  unfold build_dictionary. destruct scrape; [apply sublist_filter | done].
Qed.

(** X20. After any sequence of calls on a solver built by the constructor,
    words or not, raising or not, the full dictionary is the one of
    construction and the candidates are a sub-list of it. *)
Theorem candidates_stay_in_dictionary
    (top_n_list : string → Z → list string) (zipf_frequency : string → string → R)
    (n_top : Z) (filter_past_answers : bool) (scrape : option (list string))
    (calls : list call) :
  let s0 := WordleSolver_init top_n_list n_top filter_past_answers scrape in
  let s := run_calls zipf_frequency s0 calls in
  all_words s = build_dictionary top_n_list n_top false scrape
  ∧ candidates s `sublist_of` all_words s.
Proof. exact (run_calls_dictionary top_n_list zipf_frequency n_top filter_past_answers scrape calls). Qed.

(** X21. On a session built by the constructor and driven by calls on
    words, the suggestions [guess] returns for a word are dictionary words,
    and with [restrict_guesses] they are remaining candidates. *)
Theorem guess_suggests_dictionary_words
    (top_n_list : string → Z → list string) (zipf_frequency : string → string → R)
    (n_top : Z) (filter_past_answers : bool) (scrape : option (list string))
    (calls : list call) (word : string) (pat : pattern) (alpha : R) (topk : Z)
    (restrict_guesses : bool) :
  Forall well_formed_call calls → is_word word →
  let s := run_calls zipf_frequency
             (WordleSolver_init top_n_list n_top filter_past_answers scrape)
             calls in
  let r := guess zipf_frequency s word pat alpha topk restrict_guesses in
  ∃ suggested,
    r.2 = Ok suggested
    ∧ (∀ w, w ∈ suggested → w ∈ all_words s)
    ∧ (restrict_guesses = true → ∀ w, w ∈ suggested → w ∈ candidates r.1).
Proof.
  intros Hcalls Hword s r.
  assert (Hs : solver_inv s).
  { apply run_calls_inv; [apply WordleSolver_init_inv | done]. }
  destruct (run_calls_dictionary top_n_list zipf_frequency n_top
              filter_past_answers scrape calls) as [_ Hsub].
  cbn zeta in Hsub. fold s in Hsub.
  destruct Hs as [Hall Hcands _].
  assert (Hrem : ∀ w, w ∈ filter (λ w, feedback_pattern word w = Ok pat) (candidates s)
                      → w ∈ all_words s).
  { intros w [_ Hw]%list_elem_of_filter.
    eapply elem_of_submseteq; [exact Hw | by apply sublist_submseteq]. }
  subst r. unfold guess. cbn [candidates history all_words].
  rewrite filter_candidates_words by done.
  set (remaining := filter _ (candidates s)) in *.
  repeat case_bool_decide; cbn [fst snd candidates].
  - exists []. split; [done|].
    split; [intros w Hw | intros _ w Hw]; by apply elem_of_nil in Hw.
  - exists remaining. split; [done|]. split; [exact Hrem | by intros _ w].
  - destruct (suggest_guesses_pool zipf_frequency remaining (all_words s)
                alpha topk restrict_guesses) as (ws & Hws & Hpool & _).
    { destruct restrict_guesses; [by apply Forall_filter_keep | done]. }
    { by apply Forall_filter_keep. }
    exists ws. split; [done|]. split.
    + intros w Hw. pose proof (elem_of_submseteq _ _ _ Hw Hpool) as Hin.
      destruct restrict_guesses; [by apply Hrem | done].
    + intros -> w Hw. by apply (elem_of_submseteq _ _ _ Hw Hpool).
Qed.

Lemma guess_suggests_dictionary_words_witness :
  Forall well_formed_call [CallReset] ∧ is_word "slate"
  ∧ let s := run_calls sample_zipf
               (WordleSolver_init sample_corpus 100000 false None) [CallReset] in
    let r := guess sample_zipf s "slate" [0; 0; 2; 0; 2] (7 / 10) 5 true in
    ∃ suggested,
      r.2 = Ok suggested
      ∧ (∀ w, w ∈ suggested → w ∈ all_words s)
      ∧ (true = true → ∀ w, w ∈ suggested → w ∈ candidates r.1).
Proof.
  assert (Hcalls : Forall well_formed_call [CallReset]) by repeat constructor.
  split; [exact Hcalls|]. split; [reflexivity|].
  apply (guess_suggests_dictionary_words sample_corpus sample_zipf 100000 false
           None [CallReset] "slate" [0; 0; 2; 0; 2] (7 / 10) 5 true Hcalls eq_refl).
Defined.
